(** * daily-vc-chat: relay buffer, broadcast hub, client reducer and grouping

    A shallow embedding of the chat relay:
    - [Types]  : the wire shapes of [types.ts];
    - [Js]     : the few array primitives the code relies on
                 ([push], [splice(0,n)], [slice(-n)], stable [sort]);
    - [Server] : the history buffer and the websocket hub of the server;
    - [Client] : [chatReducer], [groupMessages] and the [useChatSocket]
                 reconnection logic of the front end.

    Timestamps are JavaScript numbers holding milliseconds since the epoch;
    they are modelled as [Z].  Strings are compared with [===], modelled by
    [String.eqb].  The reconnection delay is computed on doubles: it is
    held by its exact rational value and every operation rounds, see
    [Js.roundDouble]. *)

From Stdlib Require Import String ZArith QArith Qround Qpower Lia Lqa Bool List
  Permutation Sorted.
Import ListNotations.
Local Open Scope string_scope.
Local Open Scope Z_scope.
Local Open Scope list_scope.

(* ===================================================================== *)
(** ** Wire types ([types.ts]) *)
(* ===================================================================== *)

Module Types.

Inductive Platform : Type := youtube | discord.

Definition platform_eqb (p q : Platform) : bool :=
  match p, q with
  | youtube, youtube | discord, discord => true
  | _, _ => false
  end.

Record Author : Type := mkAuthor { name : string; avatar : string }.

(** [YouTubeMessage | DiscordMessage].  At run time both are plain objects:
    [attachments] exists on Discord messages only and [edited] is an
    optional property, absent until an edit spreads it in. *)
Record ChatMessage : Type := mkChat {
  platform    : Platform;
  id          : string;
  timestamp   : Z;
  author      : Author;
  content     : string;
  attachments : option (list string);
  edited      : option bool
}.

Record DiscordEditedMessage : Type := mkEdit {
  edit_platform  : Platform;
  edit_id        : string;
  edit_timestamp : Z;
  edit_content   : string
}.

Record DeletedMessage : Type := mkDelete {
  del_platform : Platform;
  del_id       : string
}.

(** [type Message = ChatMessage | DeletedMessage | HistoryMessage
                  | DiscordEditedMessage], tagged by the [type] field. *)
Inductive Message : Type :=
| MsgChat    (m : ChatMessage)
| MsgDelete  (d : DeletedMessage)
| MsgHistory (messages : list ChatMessage)
| MsgEdit    (e : DiscordEditedMessage).

(** [{ ...m, content, edited: true }] *)
Definition with_edit (m : ChatMessage) (c : string) : ChatMessage :=
  {| platform := platform m; id := id m; timestamp := timestamp m;
     author := author m; content := c; attachments := attachments m;
     edited := Some true |}.

End Types.
Import Types.

(* ===================================================================== *)
(** ** Array primitives *)
(* ===================================================================== *)

Module Js.
Section Arrays.
Variable A : Type.

(** [a.push(x)] *)
Definition push (a : list A) (x : A) : list A := a ++ [x].

(** [a.splice(0, n)]: drops the first [n] elements in place. *)
Definition splice0 (n : nat) (a : list A) : list A := skipn n a.

(** [a.slice(-n)]: the last [n] elements, the whole array when shorter. *)
Definition slice_last (n : nat) (a : list A) : list A :=
  skipn (length a - n) a.

(** [a.sort(cmp)] is a stable sort (ECMAScript 2019): elements that the
    comparator does not separate keep their relative order.  Insertion
    from the right, placing [x] in front of the first element it does not
    exceed, computes that unique result for a consistent comparator. *)
Fixpoint insert (cmp : A -> A -> Z) (x : A) (a : list A) : list A :=
  match a with
  | [] => [x]
  | h :: t => if cmp x h <=? 0 then x :: a else h :: insert cmp x t
  end.

Definition sort (cmp : A -> A -> Z) (a : list A) : list A :=
  fold_right (insert cmp) [] a.

End Arrays.

Arguments push {A} a x.
Arguments splice0 {A} n a.
Arguments slice_last {A} n a.
Arguments insert {A} cmp x a.
Arguments sort {A} cmp a.

(** *** Numbers

    A JavaScript number is an IEEE 754 binary64 value.  A finite double is
    held here by the rational it stands for, and [+] and [*] return the
    exact result rounded to the nearest double, ties to the even mantissa
    ([roundDouble]).  Doubles have 53 bits of mantissa; below [2^-1022]
    their spacing stays [2^-1074].  Results stay far below [2^1024], so
    overflow to [Infinity] is left out. *)

Definition pow2 (k : Z) : Q := (2 ^ k)%Q.

(** [floor (log2 x)] for [x > 0]. *)
Definition flog2 (x : Q) : Z :=
  let e := Z.log2 (Qnum x) - Z.log2 (Zpos (Qden x)) in
  if Qle_bool (pow2 e) x then e else e - 1.

(** The nearest integer, ties to even. *)
Definition rne (x : Q) : Z :=
  let f := Qfloor x in
  match (x - inject_Z f ?= 1 # 2)%Q with
  | Lt => f
  | Gt => f + 1
  | Eq => if Z.even f then f else f + 1
  end.

(** The exponent of the spacing of the doubles around [x > 0]. *)
Definition ulp_exponent (x : Q) : Z := Z.max (flog2 x - 52) (-1074).

Definition roundPos (x : Q) : Q :=
  let k := ulp_exponent x in
  Qred (inject_Z (rne (x / pow2 k)) * pow2 k).

Definition roundDouble (x : Q) : Q :=
  match (x ?= 0)%Q with
  | Eq => 0%Q
  | Gt => roundPos x
  | Lt => (- roundPos (- x))%Q
  end.

(** [a + b] and [a * b] on doubles. *)
Definition add (a b : Q) : Q := roundDouble (a + b).
Definition mul (a b : Q) : Q := roundDouble (a * b).

(** The rationals that are doubles. *)
Definition is_double (x : Q) : Prop := (roundDouble x == x)%Q.

Arguments roundDouble : simpl never.
Arguments add : simpl never.
Arguments mul : simpl never.
End Js.

(* ===================================================================== *)
(** ** Server: history buffer *)
(* ===================================================================== *)

Module Server.

Definition MAX_BUFFER_SIZE : nat := 100.

(** The module-level [messageBuffer] is threaded explicitly: every
    function takes the current array and returns the new one. *)
Definition Buffer : Type := list ChatMessage.

(** [[
    messageBuffer.push(message);
    if (messageBuffer.length > MAX_BUFFER_SIZE)
      messageBuffer.splice(0, messageBuffer.length - MAX_BUFFER_SIZE);
    ]] *)
Definition addToBuffer (message : ChatMessage) (messageBuffer : Buffer) : Buffer :=
  let pushed := Js.push messageBuffer message in
  if (MAX_BUFFER_SIZE <? length pushed)%nat
  then Js.splice0 (length pushed - MAX_BUFFER_SIZE) pushed
  else pushed.

(** [messageBuffer.filter((message) => message.id !== id)] *)
Definition removeFromBuffer (id' : string) (messageBuffer : Buffer) : Buffer :=
  filter (fun message => negb (String.eqb (id message) id')) messageBuffer.

(** [messageBuffer.map((message) =>
      message.id === id ? { ...message, content, edited: true } : message)] *)
Definition editInBuffer (id' : string) (content' : string)
           (messageBuffer : Buffer) : Buffer :=
  map (fun message =>
         if String.eqb (id message) id' then with_edit message content'
         else message)
      messageBuffer.

(** The buffer after a run of appends, oldest first. *)
Definition appendAll (msgs : list ChatMessage) (start : Buffer) : Buffer :=
  fold_left (fun buf m => addToBuffer m buf) msgs start.

(* ------------------------------------------------------------------- *)
(** *** Websocket hub *)
(* ------------------------------------------------------------------- *)

Definition DISCORD_CHANNEL_ID : string := "1415867512398282813".

(** A [Bun.ServerWebSocket], known by its identity. *)
Definition Conn : Type := nat.

(** What [client.send(payload)] can do.  The runtime reports a refused
    send through the returned status, which the code ignores; [Raised]
    covers a [send] that throws. *)
Inductive SendResult : Type := Accepted | Dropped | Raised.

(** The two kinds of effect a handler has, in program order: a write of
    the module-level [messageBuffer] and a frame put on a socket.  The
    payload is the event itself ([JSON.stringify] is left abstract). *)
Inductive Effect : Type :=
| BufferUpdated (b : Buffer)
| Delivered (c : Conn) (payload : Message).

(** [clients] is a [Set]: insertion ordered, without repetition. *)
Record World : Type := mkWorld {
  messageBuffer : Buffer;
  clients       : list Conn
}.

Inductive Completion (A : Type) : Type :=
| Normal (a : A)
| Throw.
Arguments Normal {A} a.
Arguments Throw {A}.

(** A handler runs on the world and yields how it completed, the world it
    left behind and the effects it performed. *)
Definition Hub (A : Type) : Type := World -> Completion A * World * list Effect.

Definition ret {A} (a : A) : Hub A := fun w => (Normal a, w, []).

Definition bind {A B} (m : Hub A) (k : A -> Hub B) : Hub B :=
  fun w =>
    match m w with
    | (Normal a, w1, e1) =>
        match k a w1 with (r, w2, e2) => (r, w2, e1 ++ e2) end
    | (Throw, w1, e1) => (Throw, w1, e1)
    end.

Notation "m1 ;; m2" := (bind m1 (fun _ => m2))
  (at level 61, right associativity).

Definition completion {A} (r : Completion A * World * list Effect) := fst (fst r).
Definition world_of {A} (r : Completion A * World * list Effect) := snd (fst r).
Definition effects {A} (r : Completion A * World * list Effect) := snd r.

Definition getBuffer : Hub Buffer := fun w => (Normal (messageBuffer w), w, []).

Definition setBuffer (b : Buffer) : Hub unit :=
  fun w => (Normal tt, {| messageBuffer := b; clients := clients w |},
            [BufferUpdated b]).

Definition updateBuffer (f : Buffer -> Buffer) : Hub unit :=
  bind getBuffer (fun b => setBuffer (f b)).

Definition is_delivery (e : Effect) : bool :=
  match e with Delivered _ _ => true | BufferUpdated _ => false end.

Definition is_buffer_write (e : Effect) : bool :=
  match e with BufferUpdated _ => true | Delivered _ _ => false end.

(** Every buffer write of the run comes before every frame. *)
Fixpoint buffer_then_fanout (tr : list Effect) : bool :=
  match tr with
  | [] => true
  | BufferUpdated _ :: rest => buffer_then_fanout rest
  | Delivered _ _ :: rest => forallb is_delivery rest
  end.

(** Every frame of the run comes before every buffer write. *)
Fixpoint fanout_then_buffer (tr : list Effect) : bool :=
  match tr with
  | [] => true
  | Delivered _ _ :: rest => fanout_then_buffer rest
  | BufferUpdated _ :: rest => forallb is_buffer_write rest
  end.

(** Incoming Discord gateway message, reduced to what the handlers read. *)
Record GuildMessage : Type := mkGuildMessage {
  inGuild          : bool;
  channelId        : string;
  gm_id            : string;
  createdTimestamp : Z;
  editedTimestamp  : Z;
  displayName      : string;
  displayAvatarURL : string;
  gm_content       : string;
  attachmentUrls   : list string
}.

(** Masterchat actions; the handler's [switch] has two cases. *)
Inductive Action : Type :=
| addChatItemAction (chat_id : string) (chat_timestamp : Z)
                    (authorName : option string) (authorPhoto : string)
                    (message_text : string)
| markChatItemAsDeletedAction (targetId : string)
| otherAction.

Definition accepted (r : SendResult) : bool :=
  match r with Accepted => true | _ => false end.

Definition delivery (msg : Message) (c : Conn) : Effect := Delivered c msg.

(** The object literal built by the [messageCreate] handler. *)
Definition discordChat (message : GuildMessage) : ChatMessage :=
  {| platform := discord;
     id := gm_id message;
     timestamp := createdTimestamp message;
     author := {| name := displayName message;
                  avatar := displayAvatarURL message |};
     content := gm_content message;
     attachments := Some (attachmentUrls message);
     edited := None |}.

(** The object literal built for an [addChatItemAction];
    [chat.authorName ?? "Unknown"]. *)
Definition youtubeChat (chat_id : string) (ts : Z) (authorName : option string)
           (authorPhoto text : string) : ChatMessage :=
  {| platform := youtube;
     id := chat_id;
     timestamp := ts;
     author := {| name := match authorName with
                          | Some n => n
                          | None => "Unknown"
                          end;
                  avatar := authorPhoto |};
     content := text;
     attachments := None;
     edited := None |}.

Section Network.
(** The behaviour of the sockets during one handler run. *)
Variable send : Conn -> Message -> SendResult.

Definition client_send (c : Conn) (payload : Message) : Hub unit :=
  fun w =>
    match send c payload with
    | Accepted => (Normal tt, w, [Delivered c payload])
    | Dropped  => (Normal tt, w, [])
    | Raised   => (Throw, w, [])
    end.

(** [set.forEach(f)]: visits the members in insertion order; an exception
    thrown by [f] ends the iteration. *)
Fixpoint forEach (members : list Conn) (f : Conn -> Hub unit) : Hub unit :=
  match members with
  | [] => ret tt
  | c :: rest => f c ;; forEach rest f
  end.

(** [[
    const payload = JSON.stringify(message);
    clients.forEach((client) => { client.send(payload); });
    ]] *)
Definition broadcastMessage (message : Message) : Hub unit :=
  fun w => forEach (clients w) (fun client => client_send client message) w.

(** The frames of a fan-out in which no socket throws: one for each
    member whose socket takes it, in set order. *)
Definition fanout (msg : Message) (w : World) : list Effect :=
  map (delivery msg) (filter (fun c => accepted (send c msg)) (clients w)).

(** [addToBuffer(message); broadcastMessage(message);] *)
Definition broadcastChatMessage (message : ChatMessage) : Hub unit :=
  updateBuffer (addToBuffer message) ;;
  broadcastMessage (MsgChat message).

Definition inChannel (m : GuildMessage) : bool :=
  inGuild m && String.eqb (channelId m) DISCORD_CHANNEL_ID.

(** [discord.on("messageCreate", ...)] *)
Definition messageCreate (message : GuildMessage) : Hub unit :=
  if negb (inChannel message) then ret tt
  else broadcastChatMessage (discordChat message).

(** [discord.on("messageUpdate", ...)]: nothing happens unless the buffer
    holds an entry with the id; then the edit is broadcast and, after
    that, applied to the buffer. *)
Definition messageUpdate (newMessage : GuildMessage) : Hub unit :=
  bind getBuffer (fun buf =>
    if negb (inChannel newMessage)
       || negb (existsb (fun m => String.eqb (id m) (gm_id newMessage)) buf)
    then ret tt
    else
      broadcastMessage
        (MsgEdit {| edit_platform := discord;
                    edit_id := gm_id newMessage;
                    edit_timestamp := editedTimestamp newMessage;
                    edit_content := gm_content newMessage |}) ;;
      updateBuffer (editInBuffer (gm_id newMessage) (gm_content newMessage))).

(** [discord.on("messageDelete", ...)] *)
Definition messageDelete (message : GuildMessage) : Hub unit :=
  if negb (inChannel message) then ret tt
  else
    broadcastMessage
      (MsgDelete {| del_platform := discord; del_id := gm_id message |}) ;;
    updateBuffer (removeFromBuffer (gm_id message)).

(** One iteration of the loop of [masterchat.on("actions", ...)]. *)
Definition handleAction (action : Action) : Hub unit :=
  match action with
  | addChatItemAction chat_id ts authorName authorPhoto text =>
      broadcastChatMessage
        (youtubeChat chat_id ts authorName authorPhoto text)
  | markChatItemAsDeletedAction targetId =>
      broadcastMessage
        (MsgDelete {| del_platform := youtube; del_id := targetId |}) ;;
      updateBuffer (removeFromBuffer targetId)
  | otherAction => ret tt
  end.

Fixpoint actions (l : list Action) : Hub unit :=
  match l with
  | [] => ret tt
  | a :: rest => handleAction a ;; actions rest
  end.

(** [clients.add(ws)] *)
Definition set_add (ws : Conn) (s : list Conn) : list Conn :=
  if existsb (Nat.eqb ws) s then s else s ++ [ws].

(** [clients.delete(ws)] *)
Definition set_delete (ws : Conn) (s : list Conn) : list Conn :=
  filter (fun c => negb (Nat.eqb c ws)) s.

(** [websocket.open(ws)]: register, then send the history when the
    buffer is not empty. *)
Definition open (ws : Conn) : Hub unit :=
  (fun w => (Normal tt,
             {| messageBuffer := messageBuffer w;
                clients := set_add ws (clients w) |}, [])) ;;
  bind getBuffer (fun buf =>
    if (0 <? length buf)%nat
    then client_send ws (MsgHistory buf)
    else ret tt).

(** [websocket.close(ws)] *)
Definition close (ws : Conn) : Hub unit :=
  fun w => (Normal tt,
            {| messageBuffer := messageBuffer w;
               clients := set_delete ws (clients w) |}, []).

(** The frame a connection gets when it joins a hub whose buffer is
    [buf]. *)
Definition historyFrame (ws : Conn) (buf : Buffer) : list Effect :=
  if (0 <? length buf)%nat && accepted (send ws (MsgHistory buf))
  then [Delivered ws (MsgHistory buf)]
  else [].

(** The entry points through which an event is published. *)
Inductive Publication : Type :=
| CreateOnDiscord (message : GuildMessage)
| CreateOnYouTube (chat_id : string) (chat_timestamp : Z)
                  (authorName : option string) (authorPhoto : string)
                  (message_text : string)
| EditOnDiscord   (newMessage : GuildMessage)
| DeleteOnDiscord (message : GuildMessage)
| DeleteOnYouTube (targetId : string).

Definition publish (p : Publication) : Hub unit :=
  match p with
  | CreateOnDiscord message => messageCreate message
  | CreateOnYouTube i t n a c => handleAction (addChatItemAction i t n a c)
  | EditOnDiscord newMessage => messageUpdate newMessage
  | DeleteOnDiscord message => messageDelete message
  | DeleteOnYouTube targetId =>
      handleAction (markChatItemAsDeletedAction targetId)
  end.

(** What the hub reacts to: a socket opens, a socket closes, an event
    arrives from a platform. *)
Inductive HubEvent : Type :=
| Join    (ws : Conn)
| Leave   (ws : Conn)
| Publish (p : Publication).

Definition handle (ev : HubEvent) : Hub unit :=
  match ev with
  | Join ws   => open ws
  | Leave ws  => close ws
  | Publish p => publish p
  end.

(** The callbacks run one after the other, each to completion; an
    exception that escapes one of them ends the run here. *)
Fixpoint serve (evs : list HubEvent) : Hub unit :=
  match evs with
  | [] => ret tt
  | ev :: rest => handle ev ;; serve rest
  end.

End Network.

(** The event is not the opening or closing of the socket [c]. *)
Definition foreign (c : Conn) (ev : HubEvent) : Prop :=
  match ev with
  | Join ws | Leave ws => ws <> c
  | Publish _ => True
  end.

(** The channel filter of the Discord handlers; YouTube actions have none. *)
Definition relayed (p : Publication) : bool :=
  match p with
  | CreateOnDiscord m | EditOnDiscord m | DeleteOnDiscord m => inChannel m
  | CreateOnYouTube _ _ _ _ _ | DeleteOnYouTube _ => true
  end.

Definition creates (p : Publication) : bool :=
  match p with
  | CreateOnDiscord _ | CreateOnYouTube _ _ _ _ _ => true
  | _ => false
  end.

(** The buffer mutation an event stands for. *)
Definition bufferEffect (p : Publication) (buf : Buffer) : Buffer :=
  match p with
  | CreateOnDiscord m => addToBuffer (discordChat m) buf
  | CreateOnYouTube i t n a c => addToBuffer (youtubeChat i t n a c) buf
  | EditOnDiscord m => editInBuffer (gm_id m) (gm_content m) buf
  | DeleteOnDiscord m => removeFromBuffer (gm_id m) buf
  | DeleteOnYouTube targetId => removeFromBuffer targetId buf
  end.

(** The frame a handler broadcasts on a buffer [buf], if it broadcasts:
    the Discord handlers drop events of other channels, and
    [messageUpdate] drops an edit whose id the buffer does not hold. *)
Definition frame_of (p : Publication) (buf : Buffer) : option Message :=
  match p with
  | CreateOnDiscord m =>
      if inChannel m then Some (MsgChat (discordChat m)) else None
  | CreateOnYouTube i t n a c => Some (MsgChat (youtubeChat i t n a c))
  | EditOnDiscord m =>
      if inChannel m && existsb (fun e => String.eqb (id e) (gm_id m)) buf
      then Some (MsgEdit {| edit_platform := discord;
                            edit_id := gm_id m;
                            edit_timestamp := editedTimestamp m;
                            edit_content := gm_content m |})
      else None
  | DeleteOnDiscord m =>
      if inChannel m
      then Some (MsgDelete {| del_platform := discord; del_id := gm_id m |})
      else None
  | DeleteOnYouTube targetId =>
      Some (MsgDelete {| del_platform := youtube; del_id := targetId |})
  end.

(** The frames one connection found on its socket, in order. *)
Fixpoint frames_to (c : Conn) (tr : list Effect) : list Message :=
  match tr with
  | [] => []
  | Delivered c' payload :: rest =>
      if Nat.eqb c' c then payload :: frames_to c rest else frames_to c rest
  | BufferUpdated _ :: rest => frames_to c rest
  end.

(** Ids are not shared between the platforms: [owner] tells which platform
    an id belongs to, and a created or deleted message comes from the
    platform that owns its id. *)
Definition keyed (owner : string -> Platform) (p : Publication) : Prop :=
  match p with
  | CreateOnDiscord m | DeleteOnDiscord m => owner (gm_id m) = discord
  | CreateOnYouTube i _ _ _ _ => owner i = youtube
  | DeleteOnYouTube targetId => owner targetId = youtube
  | EditOnDiscord _ => True
  end.

Definition owned (owner : string -> Platform) (buf : Buffer) : Prop :=
  Forall (fun m => platform m = owner (id m)) buf.

(** The publications of a batch of Masterchat actions, in order; action
    types that the [switch] has no case for are passed over. *)
Fixpoint publications_of (batch : list Action) : list HubEvent :=
  match batch with
  | [] => []
  | addChatItemAction i t n a c :: rest =>
      Publish (CreateOnYouTube i t n a c) :: publications_of rest
  | markChatItemAsDeletedAction targetId :: rest =>
      Publish (DeleteOnYouTube targetId) :: publications_of rest
  | otherAction :: rest => publications_of rest
  end.

(** The buffer mutations of a run, applied in order to [buf]. *)
Definition bufferAfter (evs : list HubEvent) (buf : Buffer) : Buffer :=
  fold_left (fun b ev =>
               match ev with
               | Publish p => if relayed p then bufferEffect p b else b
               | _ => b
               end)
            evs buf.

Definition keyed_event (owner : string -> Platform) (ev : HubEvent) : Prop :=
  match ev with
  | Publish p => keyed owner p
  | _ => True
  end.

End Server.

(* ===================================================================== *)
(** ** Client: reducer, grouping, reconnecting socket *)
(* ===================================================================== *)

Module Client.

Record ChatState : Type := mkState { messages : list ChatMessage }.

Inductive ChatAction : Type :=
| history     (payload : list ChatMessage)
| add_message (payload : ChatMessage)
| edit        (payload : DiscordEditedMessage)
| delete      (payload : DeletedMessage).

(** [(a, b) => a.timestamp - b.timestamp] *)
Definition byTimestamp (a b : ChatMessage) : Z := timestamp a - timestamp b.

(** The order the history is sorted into. *)
Definition ts_le (a b : ChatMessage) : Prop := timestamp a <= timestamp b.

Definition chatReducer (state : ChatState) (action : ChatAction) : ChatState :=
  match action with
  | history payload =>
      {| messages := Js.sort byTimestamp payload |}
  | add_message payload =>
      let next := messages state ++ [payload] in
      {| messages := Js.slice_last 100 next |}
  | edit payload =>
      let next :=
        map (fun m =>
               if String.eqb (id m) (edit_id payload)
               then with_edit m (edit_content payload)
               else m)
            (messages state) in
      {| messages := next |}
  | delete payload =>
      let next :=
        filter (fun m =>
                  negb (platform_eqb (platform m) (del_platform payload)
                        && String.eqb (id m) (del_id payload)))
               (messages state) in
      {| messages := next |}
  end.

(** [handleIncoming]: the dispatch made for each frame accepted by the
    socket. *)
Definition handleIncoming (msg : Message) : ChatAction :=
  match msg with
  | MsgHistory ms => history ms
  | MsgChat m     => add_message m
  | MsgEdit e     => edit e
  | MsgDelete d   => delete d
  end.

Definition reduceAll (state : ChatState) (events : list Message) : ChatState :=
  fold_left (fun s ev => chatReducer s (handleIncoming ev)) events state.

(* ------------------------------------------------------------------- *)
(** *** Grouping *)
(* ------------------------------------------------------------------- *)

Definition GROUP_WINDOW_MS : Z := 5 * 60 * 1000.

(** [interface MessageGroup { id; first; messages }]; the fields [id] and
    [messages] are called [gid] and [members] here, the names being taken
    by the message and the state. *)
Record MessageGroup : Type := mkGroup {
  gid     : string;
  first   : ChatMessage;
  members : list ChatMessage
}.

Definition newGroup (message : ChatMessage) : MessageGroup :=
  {| gid := id message; first := message; members := [message] |}.

(** The loop keeps [groups] and [current], where [current] is the very
    object last pushed on [groups]: a [current.messages.push] is seen
    through the array.  The state below holds the groups pushed before
    [current] and [current] itself; the array is their concatenation. *)
Definition LoopState : Type := (list MessageGroup * option MessageGroup)%type.

Definition groups_of (st : LoopState) : list MessageGroup :=
  fst st ++ match snd st with Some cur => [cur] | None => [] end.

(** [current.messages[current.messages.length - 1]] *)
Definition lastOf (a : list ChatMessage) : option ChatMessage :=
  nth_error a (length a - 1).

Definition sameAuthor (message last : ChatMessage) : bool :=
  platform_eqb (platform message) (platform last)
  && String.eqb (name (author message)) (name (author last)).

Definition withinWindow (current : MessageGroup) (message : ChatMessage) : bool :=
  Z.abs (timestamp (first current) - timestamp message) <=? GROUP_WINDOW_MS.

(** The body of [for (const message of messages)]. *)
Definition groupStep (st : LoopState) (message : ChatMessage) : LoopState :=
  match snd st with
  | None => (fst st, Some (newGroup message))
  | Some current =>
      match lastOf (members current) with
      | None => st
      | Some last =>
          if sameAuthor message last && withinWindow current message
          then (fst st,
                Some {| gid := gid current; first := first current;
                        members := Js.push (members current) message |})
          else (fst st ++ [current], Some (newGroup message))
      end
  end.

Definition groupMessages (messages : list ChatMessage) : list MessageGroup :=
  groups_of (fold_left groupStep messages ([], None)).

(** The rule of the specification: the message joins the current group
    when it has the platform and author name of the group's first message
    and lies within the window of it. *)
Definition joins (current : MessageGroup) (message : ChatMessage) : bool :=
  platform_eqb (platform message) (platform (first current))
  && String.eqb (name (author message)) (name (author (first current)))
  && (Z.abs (timestamp message - timestamp (first current)) <=? 5 * 60 * 1000).

Definition addMember (g : MessageGroup) (message : ChatMessage) : MessageGroup :=
  {| gid := gid g; first := first g; members := members g ++ [message] |}.

(** One step of the scan as the specification words it, on the sequence
    of groups built so far, whose last element is the current group. *)
Definition specStep (groups : list MessageGroup) (message : ChatMessage)
  : list MessageGroup :=
  match rev groups with
  | [] => [newGroup message]
  | current :: earlier =>
      if joins current message
      then rev earlier ++ [addMember current message]
      else groups ++ [newGroup message]
  end.

Definition groupMessages_spec (messages : list ChatMessage) : list MessageGroup :=
  fold_left specStep messages [].

(** The state of the loop after scanning [msgs]. *)
Definition scan (msgs : list ChatMessage) : LoopState :=
  fold_left groupStep msgs ([], None).

(** Every member of a group has the platform and author name of the
    group's first message, and the group starts with that message. *)
Definition uniform (g : MessageGroup) : Prop :=
  (exists rest, members g = first g :: rest)
  /\ Forall (fun m => platform m = platform (first g)
                      /\ name (author m) = name (author (first g)))
            (members g).

(** What the loop maintains: no group is pushed before a first [current]
    exists, and [current] is uniform. *)
Definition loop_inv (st : LoopState) : Prop :=
  match snd st with
  | None => fst st = []
  | Some current => uniform current
  end.

(** What a returned group looks like. *)
Definition well_formed (g : MessageGroup) : Prop :=
  members g <> []
  /\ hd_error (members g) = Some (first g)
  /\ gid g = id (first g).

(* ------------------------------------------------------------------- *)
(** *** [useChatSocket] *)
(* ------------------------------------------------------------------- *)

Inductive ConnectionState : Type := connecting | connected | disconnected.

(** The hook's React state ([connectionState], [latencyMs], [retryCount]),
    its refs ([socketRef], [pingIntervalRef], [retryRef]), the effect's
    [cancelled] flag and the delays of the pending [setTimeout(connect, _)]
    calls, oldest first. *)
Record Socket : Type := mkSocket {
  connectionState : ConnectionState;
  latencyMs       : option Z;
  retryCount      : Z;
  socketRef       : bool;
  pingIntervalRef : bool;
  retryRef        : Z;
  cancelled       : bool;
  timeouts        : list Q
}.

Definition initial : Socket :=
  {| connectionState := connecting; latencyMs := None; retryCount := 0;
     socketRef := false; pingIntervalRef := false; retryRef := 0;
     cancelled := false; timeouts := [] |}.

(** [connect()]: drops the previous socket and probe, opens a new socket. *)
Definition connect (s : Socket) : Socket :=
  if cancelled s then s
  else {| connectionState := connecting; latencyMs := latencyMs s;
          retryCount := retryCount s; socketRef := true;
          pingIntervalRef := false; retryRef := retryRef s;
          cancelled := false; timeouts := timeouts s |}.

(** [ws.onopen]; [elapsed] is [Math.round(performance.now() - connectStartedAt)]. *)
Definition onopen (elapsed : Z) (s : Socket) : Socket :=
  if cancelled s then s
  else {| connectionState := connected; latencyMs := Some elapsed;
          retryCount := 0; socketRef := socketRef s;
          pingIntervalRef := true; retryRef := retryRef s;
          cancelled := false; timeouts := timeouts s |}.

Definition baseDelay (retry : Z) : Z := Z.min 5000 (500 * retry).

(** [ws.onclose]; [random] is the value returned by [Math.random()].  The
    jitter [Math.random() * 400] and the delay [baseDelay + jitter] are
    computed on doubles. *)
Definition onclose (random : Q) (s : Socket) : Socket :=
  if cancelled s then s
  else
    let retry := retryRef s + 1 in
    let jitter := Js.mul random 400 in
    {| connectionState := disconnected; latencyMs := latencyMs s;
       retryCount := retry; socketRef := socketRef s;
       pingIntervalRef := false; retryRef := retry;
       cancelled := false;
       timeouts := timeouts s ++ [Js.add (inject_Z (baseDelay retry)) jitter] |}.

(** The cleanup returned by the effect. *)
Definition teardown (s : Socket) : Socket :=
  {| connectionState := connectionState s; latencyMs := latencyMs s;
     retryCount := retryCount s; socketRef := false;
     pingIntervalRef := false; retryRef := retryRef s;
     cancelled := true; timeouts := timeouts s |}.

Inductive SocketEvent : Type :=
| Opened (elapsed : Z)
| Closed (random : Q)
| TimerFired
| TornDown.

Definition socketStep (s : Socket) (ev : SocketEvent) : Socket :=
  match ev with
  | Opened elapsed => onopen elapsed s
  | Closed random  => onclose random s
  | TimerFired =>
      match timeouts s with
      | [] => s
      | _ :: rest =>
          connect {| connectionState := connectionState s;
                     latencyMs := latencyMs s; retryCount := retryCount s;
                     socketRef := socketRef s;
                     pingIntervalRef := pingIntervalRef s;
                     retryRef := retryRef s; cancelled := cancelled s;
                     timeouts := rest |}
      end
  | TornDown => teardown s
  end.

Definition runSocket (evs : list SocketEvent) (s : Socket) : Socket :=
  fold_left socketStep evs s.

(** The delay of the reconnection scheduled last. *)
Definition scheduledDelay (s : Socket) : option Q :=
  nth_error (timeouts s) (length (timeouts s) - 1).

(** Two groups that follow each other in [gs]. *)
Definition adjacent (gs : list MessageGroup) (g1 g2 : MessageGroup) : Prop :=
  exists pre post, gs = pre ++ g1 :: g2 :: post.

(** The [onclose] calls of a run that find the hook still mounted. *)
Fixpoint closesHandled (evs : list SocketEvent) : nat :=
  match evs with
  | [] => 0
  | TornDown :: _ => 0
  | Closed _ :: rest => S (closesHandled rest)
  | _ :: rest => closesHandled rest
  end.

(** The values [Math.random()] may return. *)
Definition unit_interval (ev : SocketEvent) : Prop :=
  match ev with
  | Closed random => (0 <= random)%Q /\ (random < 1)%Q
  | _ => True
  end.

(** A message that has the platform and author name of [m0] and lies
    within the window of it. *)
Definition near (m0 m : ChatMessage) : Prop :=
  platform m = platform m0
  /\ name (author m) = name (author m0)
  /\ Z.abs (timestamp m - timestamp m0) <= 300000.

End Client.

(* ===================================================================== *)
(** ** Sample data *)
(* ===================================================================== *)

Module Samples.
Import Server.

(** Two messages that share the id ["a"] across the platforms. *)
Definition yt_a : ChatMessage :=
  mkChat youtube "a" 1 (mkAuthor "ann" "ann.png") "from youtube" None None.

Definition dc_a : ChatMessage :=
  mkChat discord "a" 2 (mkAuthor "bob" "bob.png") "from discord" (Some []) None.

(** A gateway message of the relayed channel with id ["a"]. *)
Definition gm_a (text : string) : GuildMessage :=
  {| inGuild := true; channelId := DISCORD_CHANNEL_ID; gm_id := "a";
     createdTimestamp := 2; editedTimestamp := 3; displayName := "bob";
     displayAvatarURL := "bob.png"; gm_content := text;
     attachmentUrls := [] |}.

Definition all_accept : Conn -> Message -> SendResult := fun _ _ => Accepted.

(** Connection 2 is closed: its [send] reports the frame as dropped. *)
Definition drops_2 : Conn -> Message -> SendResult :=
  fun c _ => if Nat.eqb c 2 then Dropped else Accepted.

(** Connection 2 throws from [send]. *)
Definition raises_2 : Conn -> Message -> SendResult :=
  fun c _ => if Nat.eqb c 2 then Raised else Accepted.

Definition three_clients : World :=
  {| messageBuffer := []; clients := [1%nat; 2%nat; 3%nat] |}.

Definition one_client : World :=
  {| messageBuffer := [dc_a]; clients := [1%nat] |}.

(** A gateway message of some other channel. *)
Definition gm_elsewhere : GuildMessage :=
  {| inGuild := true; channelId := "42"; gm_id := "a";
     createdTimestamp := 2; editedTimestamp := 3; displayName := "bob";
     displayAvatarURL := "bob.png"; gm_content := "hi";
     attachmentUrls := [] |}.

(** The id ["a"] is a Discord id, every other id a YouTube id. *)
Definition owner_of_a (i : string) : Platform :=
  if String.eqb i "a" then discord else youtube.

Definition two_clients : World :=
  {| messageBuffer := [dc_a]; clients := [1%nat; 2%nat] |}.

(** A third socket joins, YouTube adds ["b"], Discord edits ["a"], the
    second socket leaves, Discord deletes ["a"]. *)
Definition busy_run : list HubEvent :=
  [Join 3%nat;
   Publish (CreateOnYouTube "b" 5 (Some "ann") "ann.png" "hello");
   Publish (EditOnDiscord (gm_a "x"));
   Leave 2%nat;
   Publish (DeleteOnDiscord (gm_a ""))].

(** The largest double below 1, [1 - 2^-53]. *)
Definition largest_draw : Q := (9007199254740991 # 9007199254740992)%Q.

Definition nine_closes : list Client.SocketEvent :=
  repeat (Client.Closed 0) 9.

Definition mounted_run : list Client.SocketEvent :=
  [Client.Closed 0; Client.TimerFired; Client.Opened 7; Client.Closed 0;
   Client.TornDown; Client.Closed 0].

End Samples.

(* ===================================================================== *)
(** * Properties *)
(* ===================================================================== *)

Module TypesFacts.

Lemma platform_eqb_eq p q : platform_eqb p q = true <-> p = q.
Proof. destruct p, q; simpl; split; congruence. Qed.

Lemma platform_eqb_refl p : platform_eqb p p = true.
Proof. destruct p; reflexivity. Qed.

End TypesFacts.

Module JsFacts.
Section Arrays.
Variable A : Type.
Implicit Types a : list A.

Lemma slice_last_length n a :
  length (Js.slice_last n a) = Nat.min n (length a).
Proof. unfold Js.slice_last. rewrite length_skipn. lia. Qed.

Lemma slice_last_short n a : (length a <= n)%nat -> Js.slice_last n a = a.
Proof.
  intros H. unfold Js.slice_last.
  replace (length a - n)%nat with 0%nat by lia. reflexivity.
Qed.

(** Taking the last [n] after appending one element only looks at the
    last [n] of what was there before. *)
Lemma slice_last_push n a x :
  Js.slice_last n (Js.push (Js.slice_last n a) x)
  = Js.slice_last n (Js.push a x).
Proof.
  unfold Js.slice_last, Js.push.
  rewrite !length_app, length_skipn. simpl.
  destruct (Nat.le_gt_cases (length a) n) as [Hle | Hgt].
  - replace (length a - n)%nat with 0%nat by lia. simpl.
    f_equal. lia.
  - replace (length a - (length a - n) + 1 - n)%nat with 1%nat by lia.
    replace (length a + 1 - n)%nat with (1 + (length a - n))%nat by lia.
    rewrite <- skipn_skipn.
    f_equal.
    rewrite skipn_app.
    replace (length a - n - length a)%nat with 0%nat by lia.
    reflexivity.
Qed.

Variable cmp : A -> A -> Z.

Lemma insert_perm x a : Permutation (x :: a) (Js.insert cmp x a).
Proof.
  induction a as [| h t IH]; simpl.
  - apply Permutation_refl.
  - destruct (cmp x h <=? 0).
    + apply Permutation_refl.
    + eapply perm_trans; [apply perm_swap | apply perm_skip, IH].
Qed.

Lemma sort_perm a : Permutation a (Js.sort cmp a).
Proof.
  induction a as [| x t IH]; simpl.
  - constructor.
  - eapply perm_trans; [apply perm_skip, IH | apply insert_perm].
Qed.


End Arrays.
End JsFacts.

(* ===================================================================== *)
(** ** The history buffer *)
(* ===================================================================== *)

Module ServerFacts.
Import Server Samples.

Lemma addToBuffer_slice message buf :
  addToBuffer message buf = Js.slice_last MAX_BUFFER_SIZE (Js.push buf message).
Proof.
  unfold addToBuffer, Js.splice0, Js.slice_last.
  destruct (Nat.ltb_spec MAX_BUFFER_SIZE (length (Js.push buf message))) as [H | H].
  - reflexivity.
  - replace (length (Js.push buf message) - MAX_BUFFER_SIZE)%nat with 0%nat by lia.
    reflexivity.
Qed.

Lemma addToBuffer_length message buf :
  length (addToBuffer message buf) = Nat.min MAX_BUFFER_SIZE (S (length buf)).
Proof.
  rewrite addToBuffer_slice, JsFacts.slice_last_length.
  unfold Js.push, MAX_BUFFER_SIZE. rewrite length_app. cbn [length]. lia.
Qed.

Lemma appendAll_snoc msgs m start :
  appendAll (msgs ++ [m]) start = addToBuffer m (appendAll msgs start).
Proof. unfold appendAll. rewrite fold_left_app. reflexivity. Qed.

Lemma appendAll_slice msgs :
  appendAll msgs [] = Js.slice_last MAX_BUFFER_SIZE msgs.
Proof.
  induction msgs as [| m msgs IH] using rev_ind.
  - reflexivity.
  - rewrite appendAll_snoc, IH, addToBuffer_slice.
    apply JsFacts.slice_last_push.
Qed.

(** C1. After any run of appends to the initially empty buffer, the buffer
    holds the messages that remain once the first [N - 100] are dropped,
    in arrival order: when [N > 100] its length is exactly 100 and it is
    the last 100 appended; when [N <= 100] it is the whole run. *)
Theorem buffer_bound (msgs : list ChatMessage) :
  let N := length msgs in
  let buf := appendAll msgs [] in
  if (100 <? N)%nat
  then length buf = 100%nat /\ buf = skipn (N - 100) msgs
  else buf = msgs.
Proof.
  cbv zeta. rewrite appendAll_slice.
  destruct (Nat.ltb_spec 100 (length msgs)) as [H | H].
  - split.
    + rewrite JsFacts.slice_last_length. unfold MAX_BUFFER_SIZE. lia.
    + reflexivity.
  - apply JsFacts.slice_last_short. exact H.
Qed.

(* ------------------------------------------------------------------- *)

Lemma removeFromBuffer_In id' buf m :
  In m (removeFromBuffer id' buf) <-> In m buf /\ id m <> id'.
Proof.
  unfold removeFromBuffer. rewrite filter_In, negb_true_iff.
  split; intros [H1 H2]; split; trivial.
  - intros E. apply String.eqb_eq in E. congruence.
  - apply String.eqb_neq. exact H2.
Qed.

Lemma removeFromBuffer_miss id' buf :
  (forall m, In m buf -> id m <> id') -> removeFromBuffer id' buf = buf.
Proof.
  intros H. unfold removeFromBuffer.
  induction buf as [| h t IH]; simpl; trivial.
  destruct (String.eqb_spec (id h) id') as [E | E]; simpl.
  - exfalso. apply (H h); simpl; auto.
  - f_equal. apply IH. intros m Hm. apply H. simpl. auto.
Qed.

Lemma editInBuffer_miss id' c buf :
  (forall m, In m buf -> id m <> id') -> editInBuffer id' c buf = buf.
Proof.
  intros H. unfold editInBuffer.
  induction buf as [| h t IH]; simpl; trivial.
  destruct (String.eqb_spec (id h) id') as [E | E].
  - exfalso. apply (H h); simpl; auto.
  - f_equal. apply IH. intros m Hm. apply H. simpl. auto.
Qed.

(** C2, as the code has it.  The buffer is addressed by [id] alone and
    every entry carrying the id is hit: [editInBuffer] keeps the length and
    the positions, giving each entry with the id the new content and the
    edited flag and leaving every other entry as it is; [removeFromBuffer]
    keeps exactly the entries with another id, in their order; the platform
    of an entry plays no part; when no entry has the id both leave the
    buffer unchanged. *)
Theorem buffer_edit_remove_by_id (id' c : string) (buf : Buffer) :
  (length (editInBuffer id' c buf) = length buf
   /\ forall i, nth_error (editInBuffer id' c buf) i
                = option_map (fun m => if String.eqb (id m) id'
                                       then with_edit m c else m)
                             (nth_error buf i))
  /\ ((forall m, In m (removeFromBuffer id' buf) <-> In m buf /\ id m <> id')
      /\ forall pre m post,
          buf = pre ++ m :: post ->
          removeFromBuffer id' buf
          = removeFromBuffer id' pre
            ++ (if String.eqb (id m) id' then [] else [m])
            ++ removeFromBuffer id' post)
  /\ ((forall m, In m buf -> id m <> id') ->
      editInBuffer id' c buf = buf /\ removeFromBuffer id' buf = buf).
Proof.
  split; [split | split; [split |]].
  - unfold editInBuffer. apply length_map.
  - intros i. unfold editInBuffer. apply nth_error_map.
  - intros m. apply removeFromBuffer_In.
  - intros pre m post ->. unfold removeFromBuffer.
    rewrite filter_app. simpl.
    destruct (String.eqb (id m) id'); reflexivity.
  - intros Hmiss. split.
    + apply editInBuffer_miss; assumption.
    + apply removeFromBuffer_miss; assumption.
Qed.

Lemma buffer_edit_remove_by_id_witness :
  editInBuffer "zz" "x" [yt_a; dc_a] = [yt_a; dc_a]
  /\ removeFromBuffer "zz" [yt_a; dc_a] = [yt_a; dc_a].
Proof.
  apply (buffer_edit_remove_by_id "zz" "x" [yt_a; dc_a]).
  intros m [<- | [<- | []]]; simpl; discriminate.
Defined.

(** Whatever is published, a buffer of at most 100 entries stays within
    100 entries; so does every history the hub sends on a join. *)
Lemma bufferEffect_bound p buf :
  (length buf <= MAX_BUFFER_SIZE)%nat ->
  (length (bufferEffect p buf) <= MAX_BUFFER_SIZE)%nat.
Proof.
  intros H. destruct p; simpl.
  - rewrite addToBuffer_length. lia.
  - rewrite addToBuffer_length. lia.
  - unfold editInBuffer. rewrite length_map. exact H.
  - eapply Nat.le_trans; [apply filter_length_le | exact H].
  - eapply Nat.le_trans; [apply filter_length_le | exact H].
Qed.

(** C2 fails as stated: a YouTube entry that shares its id with a Discord
    message is dropped by the Discord delete handler and rewritten by the
    Discord edit handler, although its platform differs from the event's. *)
Lemma buffer_ignores_platform :
  let w := {| messageBuffer := [yt_a; dc_a]; clients := [] |} in
  In yt_a (messageBuffer w)
  /\ platform yt_a <> discord
  /\ ~ In yt_a (messageBuffer (world_of (messageDelete all_accept (gm_a "") w)))
  /\ ~ In yt_a (messageBuffer (world_of (messageUpdate all_accept (gm_a "x") w))).
Proof.
  cbv zeta. split; [| split; [| split]].
  - simpl. auto.
  - discriminate.
  - vm_compute. intros [].
  - vm_compute. intros [H | [H | []]]; discriminate.
Qed.

End ServerFacts.

(* ===================================================================== *)
(** ** The hub: fan-out and the order of effects *)
(* ===================================================================== *)

Module HubFacts.
Import Server.

Lemma fanout_then_buffer_write b tr :
  forallb is_delivery tr = true ->
  fanout_then_buffer (tr ++ [BufferUpdated b]) = true.
Proof.
  induction tr as [| [b' | c p] rest IH]; simpl; intros H; auto; discriminate.
Qed.

Lemma fanout_then_buffer_only tr :
  forallb is_delivery tr = true -> fanout_then_buffer tr = true.
Proof.
  induction tr as [| [b' | c p] rest IH]; simpl; intros H; auto; discriminate.
Qed.

Section Network.
Variable send : Conn -> Message -> SendResult.

Lemma client_send_then c msg (k : Hub unit) w :
  (client_send send c msg ;; k) w
  = match send c msg with
    | Accepted => (completion (k w), world_of (k w),
                   Delivered c msg :: effects (k w))
    | Dropped => k w
    | Raised => (Throw, w, [])
    end.
Proof.
  unfold bind, client_send, completion, world_of, effects.
  destruct (send c msg); simpl; trivial;
    destruct (k w) as [[r w2] e2]; reflexivity.
Qed.

(** The iteration never touches the world and only puts frames on
    sockets, however it ends. *)
Lemma forEach_send members msg w :
  let r := forEach members (fun c => client_send send c msg) w in
  world_of r = w /\ forallb is_delivery (effects r) = true.
Proof.
  cbv zeta.
  induction members as [| c rest IH]; simpl.
  - split; reflexivity.
  - rewrite client_send_then. destruct IH as [IHw IHe].
    destruct (send c msg); unfold world_of, effects in *; simpl; auto.
Qed.

(** When no socket throws, every member is visited: the frames are those
    of the members that accepted, in set order. *)
Lemma forEach_send_total members msg w :
  (forall c, In c members -> send c msg <> Raised) ->
  forEach members (fun c => client_send send c msg) w
  = (Normal tt, w,
     map (delivery msg) (filter (fun c => accepted (send c msg)) members)).
Proof.
  induction members as [| c rest IH]; intros H; simpl.
  - reflexivity.
  - rewrite client_send_then.
    assert (Hc : send c msg <> Raised) by (apply H; simpl; auto).
    rewrite IH by (intros c' Hc'; apply H; simpl; auto).
    destruct (send c msg); simpl; try reflexivity. congruence.
Qed.

Lemma broadcastMessage_world msg w :
  world_of (broadcastMessage send msg w) = w.
Proof. unfold broadcastMessage. apply forEach_send. Qed.

Lemma broadcastMessage_frames msg w :
  forallb is_delivery (effects (broadcastMessage send msg w)) = true.
Proof. unfold broadcastMessage. apply forEach_send. Qed.

Lemma broadcastMessage_total msg w :
  (forall c, In c (clients w) -> send c msg <> Raised) ->
  broadcastMessage send msg w
  = (Normal tt, w,
     map (delivery msg) (filter (fun c => accepted (send c msg)) (clients w))).
Proof. unfold broadcastMessage. apply forEach_send_total. Qed.

(** Broadcast first, buffer afterwards: the shape shared by the edit and
    delete paths. *)
Lemma broadcast_then_update msg f w :
  let r := (broadcastMessage send msg ;; updateBuffer f) w in
  fanout_then_buffer (effects r) = true
  /\ clients (world_of r) = clients w
  /\ ((forall c, In c (clients w) -> send c msg <> Raised) ->
      completion r = Normal tt
      /\ messageBuffer (world_of r) = f (messageBuffer w)).
Proof.
  cbv zeta. unfold bind.
  pose proof (broadcastMessage_world msg w) as Hw.
  pose proof (broadcastMessage_frames msg w) as Hf.
  pose proof (@broadcastMessage_total msg w) as Ht.
  destruct (broadcastMessage send msg w) as [[r w1] e1].
  unfold world_of, effects, completion in *. simpl in *. subst w1.
  split; [| split].
  - destruct r; simpl.
    + apply fanout_then_buffer_write. exact Hf.
    + apply fanout_then_buffer_only. exact Hf.
  - destruct r; reflexivity.
  - intros Hno. specialize (Ht Hno). inversion Ht; subst. simpl. auto.
Qed.

(** Buffer first, broadcast afterwards: the message path. *)
Lemma update_then_broadcast m w :
  let r := broadcastChatMessage send m w in
  buffer_then_fanout (effects r) = true
  /\ clients (world_of r) = clients w
  /\ messageBuffer (world_of r) = addToBuffer m (messageBuffer w).
Proof.
  cbv zeta. unfold broadcastChatMessage, bind, updateBuffer, bind, getBuffer, setBuffer.
  set (w1 := {| messageBuffer := addToBuffer m (messageBuffer w);
                clients := clients w |}).
  pose proof (broadcastMessage_world (MsgChat m) w1) as Hw.
  pose proof (broadcastMessage_frames (MsgChat m) w1) as Hf.
  destruct (broadcastMessage send (MsgChat m) w1) as [[r w2] e2].
  unfold world_of, effects in *. simpl in *. subst w2.
  split; [| split]; try reflexivity.
  destruct e2 as [| [b | c p] rest]; simpl in *; congruence.
Qed.

Lemma broadcastChatMessage_total m w :
  (forall c msg, send c msg <> Raised) ->
  completion (broadcastChatMessage send m w) = Normal tt.
Proof.
  intros Hno.
  unfold broadcastChatMessage, bind, updateBuffer, bind, getBuffer, setBuffer.
  rewrite broadcastMessage_total by (intros; apply Hno).
  reflexivity.
Qed.

Lemma open_effects ws w :
  effects (open send ws w) = historyFrame send ws (messageBuffer w).
Proof.
  unfold open, bind, getBuffer, historyFrame, effects, client_send, ret.
  simpl. destruct (0 <? length (messageBuffer w))%nat; simpl; trivial.
  destruct (send ws (MsgHistory (messageBuffer w))); reflexivity.
Qed.

(** A join handled after a handler that returned sees the buffer that
    handler left. *)
Lemma then_open (h : Hub unit) ws w :
  completion (h w) = Normal tt ->
  effects ((h ;; open send ws) w)
  = effects (h w) ++ historyFrame send ws (messageBuffer (world_of (h w))).
Proof.
  intros Hc. unfold bind.
  destruct (h w) as [[r w1] e1]. unfold completion in Hc. simpl in Hc.
  subst r. rewrite <- open_effects.
  unfold effects, world_of. simpl.
  destruct (open send ws w1) as [[r2 w2] e2]. reflexivity.
Qed.

Lemma existsb_id_false id' (buf : Buffer) :
  existsb (fun m => String.eqb (id m) id') buf = false ->
  forall m, In m buf -> id m <> id'.
Proof.
  intros H m Hm E.
  assert (existsb (fun m => String.eqb (id m) id') buf = true) as Ht.
  { apply existsb_exists. exists m. split; trivial. apply String.eqb_eq, E. }
  congruence.
Qed.

(** C4, as the code has it.  Fan-out leaves the hub as it found it: no
    connection is removed by [broadcastMessage] (the set only shrinks in
    the [close] callback).  When a send is refused through its returned
    status, the iteration goes on: provided no send throws, the handler
    returns and the frame reaches exactly the members whose send was
    accepted, in set order. *)
Theorem fanout_isolation (msg : Message) (w : World) :
  let r := broadcastMessage send msg w in
  world_of r = w
  /\ ((forall c, In c (clients w) -> send c msg <> Raised) ->
      completion r = Normal tt
      /\ effects r
         = map (delivery msg)
               (filter (fun c => accepted (send c msg)) (clients w))
      /\ forall c, In c (clients w) -> send c msg = Accepted ->
                   In (Delivered c msg) (effects r)).
Proof.
  cbv zeta. split.
  - apply broadcastMessage_world.
  - intros Hno. rewrite (@broadcastMessage_total msg w Hno).
    unfold completion, effects. simpl. repeat split.
    intros c Hc Ha. change (Delivered c msg) with (delivery msg c).
    apply in_map, filter_In. rewrite Ha. auto.
Qed.

Lemma getBuffer_bind {A} (k : Buffer -> Hub A) w :
  bind getBuffer k w = k (messageBuffer w) w.
Proof.
  unfold bind, getBuffer. destruct (k (messageBuffer w) w) as [[r w2] e2].
  reflexivity.
Qed.

Lemma messageUpdate_order m w :
  let r := messageUpdate send m w in
  fanout_then_buffer (effects r) = true
  /\ ((forall c msg, send c msg <> Raised) ->
      inChannel m = true ->
      completion r = Normal tt
      /\ messageBuffer (world_of r)
         = editInBuffer (gm_id m) (gm_content m) (messageBuffer w)).
Proof.
  cbv zeta. unfold messageUpdate. rewrite getBuffer_bind.
  destruct (inChannel m) eqn:Hin; simpl.
  - destruct (existsb _ (messageBuffer w)) eqn:Hex; simpl.
    + pose proof (broadcast_then_update
                    (MsgEdit {| edit_platform := discord;
                                edit_id := gm_id m;
                                edit_timestamp := editedTimestamp m;
                                edit_content := gm_content m |})
                    (editInBuffer (gm_id m) (gm_content m)) w) as H.
      cbv zeta in H. destruct H as (Ho & _ & Ht).
      split; [exact Ho |]. intros Hno _. apply Ht. intros; apply Hno.
    + split; [reflexivity |]. intros _ _. split; [reflexivity |].
      simpl. symmetry. apply ServerFacts.editInBuffer_miss.
      apply existsb_id_false, Hex.
  - split; [reflexivity | discriminate].
Qed.

Lemma messageDelete_order m w :
  let r := messageDelete send m w in
  fanout_then_buffer (effects r) = true
  /\ ((forall c msg, send c msg <> Raised) ->
      inChannel m = true ->
      completion r = Normal tt
      /\ messageBuffer (world_of r)
         = removeFromBuffer (gm_id m) (messageBuffer w)).
Proof.
  cbv zeta. unfold messageDelete.
  destruct (inChannel m) eqn:Hin; simpl.
  - pose proof (broadcast_then_update
                  (MsgDelete {| del_platform := discord; del_id := gm_id m |})
                  (removeFromBuffer (gm_id m)) w) as H.
    cbv zeta in H. destruct H as (Ho & _ & Ht).
    split; [exact Ho |]. intros Hno _. apply Ht. intros; apply Hno.
  - split; [reflexivity | discriminate].
Qed.

Lemma chatItemDeleted_order targetId w :
  let r := handleAction send (markChatItemAsDeletedAction targetId) w in
  fanout_then_buffer (effects r) = true
  /\ ((forall c msg, send c msg <> Raised) ->
      completion r = Normal tt
      /\ messageBuffer (world_of r)
         = removeFromBuffer targetId (messageBuffer w)).
Proof.
  cbv zeta. simpl.
  pose proof (broadcast_then_update
                (MsgDelete {| del_platform := youtube; del_id := targetId |})
                (removeFromBuffer targetId) w) as H.
  cbv zeta in H. destruct H as (Ho & _ & Ht).
  split; [exact Ho |]. intros Hno. apply Ht. intros; apply Hno.
Qed.

(** Whatever the sockets do, the writes and the frames of a handler come
    in one order; and when the handler returns on an event that passes the
    channel filter, the buffer carries the event's effect and is what a
    connection joining next is sent. *)
Lemma publish_relayed (p : Publication) (w : World) :
  let r := publish send p w in
  (if creates p
   then buffer_then_fanout (effects r) = true
   else fanout_then_buffer (effects r) = true)
  /\ ((forall c msg, send c msg <> Raised) ->
      relayed p = true ->
      completion r = Normal tt
      /\ messageBuffer (world_of r) = bufferEffect p (messageBuffer w)
      /\ forall ws,
          effects ((publish send p ;; open send ws) w)
          = effects r
            ++ historyFrame send ws (bufferEffect p (messageBuffer w))).
Proof.
  cbv zeta.
  assert (Hjoin : forall b,
             completion (publish send p w) = Normal tt
             /\ messageBuffer (world_of (publish send p w)) = b ->
             completion (publish send p w) = Normal tt
             /\ messageBuffer (world_of (publish send p w)) = b
             /\ forall ws,
                 effects ((publish send p ;; open send ws) w)
                 = effects (publish send p w) ++ historyFrame send ws b).
  { intros b [Hc Hb]. repeat split; trivial.
    intros ws. rewrite then_open by exact Hc. rewrite Hb. reflexivity. }
  destruct p as [m | i t n a c | m | m | targetId]; simpl in *.
  - (* messageCreate *)
    unfold messageCreate in *. destruct (inChannel m) eqn:Hin; simpl in *.
    + split; [apply update_then_broadcast |].
      intros Hno _. apply Hjoin. split.
      * apply broadcastChatMessage_total, Hno.
      * apply update_then_broadcast.
    + split; [reflexivity | discriminate].
  - (* addChatItemAction *)
    split; [apply update_then_broadcast |].
    intros Hno _. apply Hjoin. split.
    + apply broadcastChatMessage_total, Hno.
    + apply update_then_broadcast.
  - (* messageUpdate *)
    destruct (messageUpdate_order m w) as [Ho Ht].
    split; [exact Ho |]. intros Hno Hin. apply Hjoin, Ht; assumption.
  - (* messageDelete *)
    destruct (messageDelete_order m w) as [Ho Ht].
    split; [exact Ho |]. intros Hno Hin. apply Hjoin, Ht; assumption.
  - (* markChatItemAsDeletedAction *)
    destruct (chatItemDeleted_order targetId w) as [Ho Ht].
    split; [exact Ho |]. intros Hno _. apply Hjoin, Ht; assumption.
Qed.

End Network.
End HubFacts.

Module HubExamples.
Import Server Samples.

Lemma fanout_isolation_witness :
  let r := broadcastMessage drops_2 (MsgChat dc_a) three_clients in
  completion r = Normal tt
  /\ effects r
     = map (delivery (MsgChat dc_a))
           (filter (fun c => accepted (drops_2 c (MsgChat dc_a)))
                   (clients three_clients))
  /\ forall c, In c (clients three_clients) ->
               drops_2 c (MsgChat dc_a) = Accepted ->
               In (Delivered c (MsgChat dc_a)) (effects r).
Proof.
  apply (HubFacts.fanout_isolation drops_2 (MsgChat dc_a) three_clients).
  intros c _. unfold drops_2. destruct (Nat.eqb c 2); discriminate.
Defined.

(** C4 fails as stated.  With three members of which the second refuses
    the frame, the first and third get it, but the second is still a
    member once the fan-out is over; and when the second throws instead,
    the third gets nothing. *)
Lemma fanout_keeps_failed_member :
  let r := broadcastMessage drops_2 (MsgChat dc_a) three_clients in
  let r' := broadcastMessage raises_2 (MsgChat dc_a) three_clients in
  effects r = [Delivered 1%nat (MsgChat dc_a); Delivered 3%nat (MsgChat dc_a)]
  /\ drops_2 2%nat (MsgChat dc_a) <> Accepted
  /\ In 2%nat (clients (world_of r))
  /\ completion r' = Throw
  /\ effects r' = [Delivered 1%nat (MsgChat dc_a)]
  /\ In 2%nat (clients (world_of r')).
Proof.
  cbv zeta. repeat split; try reflexivity.
  - discriminate.
  - vm_compute. auto.
  - vm_compute. auto.
Qed.

(** C3 fails as stated.  With one member and the Discord message ["a"] in
    the buffer, the delete and the edit of ["a"] reach the member before
    the buffer is written. *)
Lemma edit_delete_fan_out_first :
  let del := effects (publish all_accept (DeleteOnDiscord (gm_a "")) one_client) in
  let upd := effects (publish all_accept (EditOnDiscord (gm_a "x")) one_client) in
  del = [Delivered 1%nat (MsgDelete (mkDelete discord "a")); BufferUpdated []]
  /\ buffer_then_fanout del = false
  /\ upd = [Delivered 1%nat (MsgEdit (mkEdit discord "a" 3 "x"));
            BufferUpdated [with_edit dc_a "x"]]
  /\ buffer_then_fanout upd = false.
Proof. cbv zeta. repeat split; reflexivity. Qed.

End HubExamples.

(* ===================================================================== *)
(** ** The client reducer *)
(* ===================================================================== *)

Module ReducerFacts.
Import Client Samples.

Lemma insert_hd x l y :
  ts_le y x -> HdRel ts_le y l -> HdRel ts_le y (Js.insert byTimestamp x l).
Proof.
  intros Hyx Hl. destruct l as [| h t]; simpl.
  - constructor. exact Hyx.
  - destruct (byTimestamp x h <=? 0); constructor; trivial.
    inversion Hl; assumption.
Qed.

Lemma insert_sorted x l :
  Sorted ts_le l -> Sorted ts_le (Js.insert byTimestamp x l).
Proof.
  induction l as [| h t IH]; simpl; intros Hs.
  - repeat constructor.
  - inversion Hs as [| ? ? Ht Hh]; subst.
    destruct (Z.leb_spec (byTimestamp x h) 0) as [Hle | Hgt].
    + constructor; trivial. constructor.
      unfold ts_le, byTimestamp in *. lia.
    + constructor.
      * apply IH, Ht.
      * apply insert_hd; trivial. unfold ts_le, byTimestamp in *. lia.
Qed.

Lemma sort_sorted l : StronglySorted ts_le (Js.sort byTimestamp l).
Proof.
  apply Sorted_StronglySorted.
  - intros a b c Hab Hbc. unfold ts_le in *. lia.
  - induction l as [| x t IH]; simpl.
    + constructor.
    + apply insert_sorted, IH.
Qed.

(** Stability: the messages of any one timestamp keep their order. *)
Lemma insert_stable t x l :
  filter (fun m => timestamp m =? t) (Js.insert byTimestamp x l)
  = filter (fun m => timestamp m =? t) (x :: l).
Proof.
  induction l as [| h r IH]; simpl.
  - reflexivity.
  - destruct (Z.leb_spec (byTimestamp x h) 0) as [Hle | Hgt].
    + reflexivity.
    + simpl in *. rewrite IH. unfold byTimestamp in Hgt.
      destruct (Z.eqb_spec (timestamp x) t), (Z.eqb_spec (timestamp h) t);
        trivial. lia.
Qed.

Lemma sort_stable t l :
  filter (fun m => timestamp m =? t) (Js.sort byTimestamp l)
  = filter (fun m => timestamp m =? t) l.
Proof.
  induction l as [| x r IH]; simpl.
  - reflexivity.
  - rewrite insert_stable. simpl. rewrite IH. reflexivity.
Qed.

Lemma reduceAll_snoc s evs ev :
  reduceAll s (evs ++ [ev]) = chatReducer (reduceAll s evs) (handleIncoming ev).
Proof. unfold reduceAll. rewrite fold_left_app. reflexivity. Qed.

(** C7.  From any view, a history carrying the single message [m]
    followed by an edit of [m]'s id leaves exactly one message: [m] with
    the edit's content and the edited flag set.  And a history event,
    wherever it comes in the stream, makes the view the stable sort of its
    messages by ascending timestamp, whatever the view was. *)
Theorem history_then_edit :
  (forall s m p t x,
      let view :=
        messages (reduceAll s [MsgHistory [m]; MsgEdit (mkEdit p (id m) t x)]) in
      view = [with_edit m x]
      /\ length view = 1%nat
      /\ Forall (fun m' => content m' = x /\ edited m' = Some true) view)
  /\ (forall s evs ms,
         let view := messages (reduceAll s (evs ++ [MsgHistory ms])) in
         view = Js.sort byTimestamp ms
         /\ Permutation ms view
         /\ StronglySorted (fun a b => timestamp a <= timestamp b) view
         /\ forall t, filter (fun m => timestamp m =? t) view
                      = filter (fun m => timestamp m =? t) ms).
Proof.
  split.
  - intros s m p t x. cbv zeta. simpl. rewrite String.eqb_refl.
    repeat split. repeat constructor.
  - intros s evs ms. cbv zeta. rewrite reduceAll_snoc. simpl.
    repeat split.
    + apply JsFacts.sort_perm.
    + apply sort_sorted.
    + intros t. apply sort_stable.
Qed.




End ReducerFacts.

(* ===================================================================== *)
(** ** Grouping *)
(* ===================================================================== *)

Module GroupFacts.
Import Client.

Lemma lastOf_snoc l x : lastOf (l ++ [x]) = Some x.
Proof.
  unfold lastOf. rewrite length_app. simpl.
  replace (length l + 1 - 1)%nat with (length l) by lia.
  rewrite nth_error_app2 by lia. rewrite Nat.sub_diag. reflexivity.
Qed.

Lemma lastOf_In l : l <> [] -> exists x, lastOf l = Some x /\ In x l.
Proof.
  intros H. destruct (exists_last H) as (l' & x & ->).
  exists x. split; [apply lastOf_snoc | apply in_or_app; simpl; auto].
Qed.

Lemma uniform_new m : uniform (newGroup m).
Proof.
  split; simpl.
  - exists []. reflexivity.
  - repeat constructor.
Qed.

(** Against a uniform group, comparing with the last member (as the loop
    does) or with the first (as the rule says) is the same test. *)
Lemma joins_last current last message :
  uniform current -> In last (members current) ->
  sameAuthor message last && withinWindow current message = joins current message.
Proof.
  intros [_ Hall] Hin.
  rewrite Forall_forall in Hall. destruct (Hall _ Hin) as [Hp Hn].
  unfold joins, sameAuthor, withinWindow, GROUP_WINDOW_MS.
  rewrite Hp, Hn. f_equal.
  replace (timestamp (first current) - timestamp message)
    with (- (timestamp message - timestamp (first current))) by lia.
  rewrite Z.abs_opp. reflexivity.
Qed.

Lemma joins_uniform current message :
  uniform current -> joins current message = true ->
  uniform (addMember current message).
Proof.
  intros [[rest Hm] Hall] Hj. unfold joins in Hj.
  apply andb_true_iff in Hj as [Hj _].
  apply andb_true_iff in Hj as [Hp Hn].
  apply TypesFacts.platform_eqb_eq in Hp. apply String.eqb_eq in Hn.
  split; simpl.
  - exists (rest ++ [message]). rewrite Hm. reflexivity.
  - apply Forall_app. split; [exact Hall | repeat constructor; assumption].
Qed.

(** One turn of the loop is one step of the rule, and keeps the loop's
    invariant. *)
Lemma groupStep_specStep st message :
  loop_inv st ->
  groups_of (groupStep st message) = specStep (groups_of st) message
  /\ loop_inv (groupStep st message).
Proof.
  destruct st as [closed [current |]]; unfold loop_inv, groupStep, groups_of;
    simpl; intros Hinv.
  - assert (Hne : members current <> []).
    { destruct Hinv as [[rest Hm] _]. rewrite Hm. discriminate. }
    destruct (lastOf_In _ Hne) as (last & Hlast & Hin).
    rewrite Hlast, (joins_last current last message Hinv Hin).
    unfold specStep. rewrite rev_app_distr. simpl.
    destruct (joins current message) eqn:Hj; simpl.
    + rewrite rev_involutive. split; [reflexivity |].
      apply (joins_uniform _ _ Hinv Hj).
    + split; [reflexivity | apply uniform_new].
  - subst closed. simpl. split; [reflexivity | apply uniform_new].
Qed.

Lemma scan_snoc msgs m : scan (msgs ++ [m]) = groupStep (scan msgs) m.
Proof. unfold scan. rewrite fold_left_app. reflexivity. Qed.

Lemma scan_inv msgs : loop_inv (scan msgs).
Proof.
  induction msgs as [| m msgs IH] using rev_ind.
  - reflexivity.
  - rewrite scan_snoc. apply groupStep_specStep, IH.
Qed.

Lemma groupMessages_snoc msgs m :
  groupMessages (msgs ++ [m]) = specStep (groupMessages msgs) m.
Proof.
  unfold groupMessages. fold (scan (msgs ++ [m])). fold (scan msgs).
  rewrite scan_snoc. apply groupStep_specStep, scan_inv.
Qed.

Lemma groupMessages_refines msgs : groupMessages msgs = groupMessages_spec msgs.
Proof.
  induction msgs as [| m msgs IH] using rev_ind.
  - reflexivity.
  - rewrite groupMessages_snoc, IH. unfold groupMessages_spec.
    rewrite fold_left_app. reflexivity.
Qed.

(** C8.  [groupMessages] is the scan of the rule: nothing for the empty
    view, and each further message either joins the current (last) group,
    when it has the platform and author name of that group's first message
    and lies within five minutes of it, or starts a group of its own.  Two
    messages of one author and platform at 0 and 300001 ms make two
    groups; at 0 and 299999 ms they make one. *)
Theorem grouping_rule :
  (forall msgs, groupMessages msgs = groupMessages_spec msgs)
  /\ groupMessages [] = []
  /\ (forall msgs m,
         groupMessages (msgs ++ [m])
         = match rev (groupMessages msgs) with
           | [] => [newGroup m]
           | current :: earlier =>
               if platform_eqb (platform m) (platform (first current))
                  && String.eqb (name (author m)) (name (author (first current)))
                  && (Z.abs (timestamp m - timestamp (first current)) <=? 300000)
               then rev earlier ++ [addMember current m]
               else groupMessages msgs ++ [newGroup m]
           end)
  /\ (forall p nm i1 i2 av1 av2 c1 c2 at1 at2 e1 e2,
         let m1 := mkChat p i1 0 (mkAuthor nm av1) c1 at1 e1 in
         let far := mkChat p i2 300001 (mkAuthor nm av2) c2 at2 e2 in
         let near := mkChat p i2 299999 (mkAuthor nm av2) c2 at2 e2 in
         groupMessages [m1; far] = [newGroup m1; newGroup far]
         /\ groupMessages [m1; near] = [mkGroup i1 m1 [m1; near]]).
Proof.
  split; [exact groupMessages_refines |].
  split; [reflexivity |].
  split; [intros msgs m; apply groupMessages_snoc |].
  intros p nm i1 i2 av1 av2 c1 c2 at1 at2 e1 e2. cbv zeta.
  unfold groupMessages, groupStep, groups_of, sameAuthor, withinWindow; simpl.
  rewrite TypesFacts.platform_eqb_refl, String.eqb_refl. simpl.
  split; reflexivity.
Qed.

Lemma specStep_partition gs m :
  Forall well_formed gs ->
  Forall well_formed (specStep gs m)
  /\ concat (map members (specStep gs m)) = concat (map members gs) ++ [m].
Proof.
  intros Hwf. unfold specStep.
  assert (Hnew : well_formed (newGroup m)).
  { repeat split. discriminate. }
  destruct (rev gs) as [| current earlier] eqn:Hr.
  - apply (f_equal (@rev _)) in Hr. rewrite rev_involutive in Hr. subst gs.
    split; [repeat constructor; apply Hnew | reflexivity].
  - apply (f_equal (@rev _)) in Hr. rewrite rev_involutive in Hr. simpl in Hr.
    subst gs. apply Forall_app in Hwf as [Hearlier Hcur].
    inversion Hcur as [| ? ? Hc _]; subst.
    destruct (joins current m).
    + split.
      * apply Forall_app. split; trivial. constructor; [| constructor].
        destruct Hc as (Hne & Hhd & Hid). repeat split; simpl; trivial.
        -- destruct (members current); [contradiction | discriminate].
        -- destruct (members current); [contradiction | exact Hhd].
      * rewrite !map_app, !concat_app. simpl. rewrite !List.app_nil_r.
        rewrite app_assoc. reflexivity.
    + split.
      * apply Forall_app. split; [| repeat constructor; apply Hnew].
        apply Forall_app. split; trivial.
      * rewrite map_app, concat_app. simpl. reflexivity.
Qed.

(** C10.  The groups returned for any view partition it in order: every
    group has members, the first of which is the group's recorded first
    message (whose id names the group), and the members of all groups put
    end to end are the view. *)
Theorem grouping_partition (msgs : list ChatMessage) :
  Forall (fun g => members g <> []
                   /\ hd_error (members g) = Some (first g)
                   /\ gid g = id (first g))
         (groupMessages msgs)
  /\ concat (map members (groupMessages msgs)) = msgs.
Proof.
  change (Forall well_formed (groupMessages msgs)
          /\ concat (map members (groupMessages msgs)) = msgs).
  induction msgs as [| m msgs [IHwf IHc]] using rev_ind.
  - split; [constructor | reflexivity].
  - rewrite groupMessages_snoc.
    destruct (specStep_partition _ m IHwf) as [Hwf Hc].
    split; [exact Hwf |]. rewrite Hc, IHc. reflexivity.
Qed.

End GroupFacts.

(* ===================================================================== *)
(** ** Rounding to doubles *)
(* ===================================================================== *)

Module NumberFacts.
Import Js.
Local Open Scope Q_scope.

Lemma pow2_pos k : 0 < pow2 k.
Proof. apply Qpower_0_lt. reflexivity. Qed.

Lemma pow2_add a b : pow2 (a + b) == pow2 a * pow2 b.
Proof. apply Qpower_plus. discriminate. Qed.

Lemma pow2_le a b : (a <= b)%Z -> pow2 a <= pow2 b.
Proof. intros H. apply Qpower_le_compat_l; [exact H | discriminate]. Qed.

Lemma pow2_lt_inv a b : pow2 a < pow2 b -> (a < b)%Z.
Proof. intros H. apply (Qpower_lt_compat_l_inv 2); [exact H | reflexivity]. Qed.

Lemma pow2_Z k : (0 <= k)%Z -> pow2 k == inject_Z (2 ^ k).
Proof. intros H. symmetry. apply (Zpower_Qpower 2 k H). Qed.

Lemma rne_comp x y : x == y -> rne x = rne y.
Proof.
  intros H. unfold rne.
  assert (Hf : Qfloor x = Qfloor y) by (rewrite H; reflexivity).
  rewrite Hf.
  assert (Hc : (x - inject_Z (Qfloor y) ?= 1 # 2) = (y - inject_Z (Qfloor y) ?= 1 # 2)).
  { rewrite H. reflexivity. }
  rewrite Hc. reflexivity.
Qed.

Lemma rne_near x :
  inject_Z (rne x) - (1 # 2) <= x /\ x <= inject_Z (rne x) + (1 # 2).
Proof.
  unfold rne. pose proof (Qfloor_le x) as Hl. pose proof (Qlt_floor x) as Hu.
  rewrite inject_Z_plus in Hu. change (inject_Z 1) with 1 in Hu.
  destruct (x - inject_Z (Qfloor x) ?= 1 # 2) eqn:E.
  - apply Qeq_alt in E.
    destruct (Z.even (Qfloor x)); rewrite ?inject_Z_plus;
      change (inject_Z 1) with 1; split; lra.
  - apply Qlt_alt in E. split; lra.
  - apply Qgt_alt in E. rewrite inject_Z_plus. change (inject_Z 1) with 1.
    split; lra.
Qed.

Lemma rne_le x y : x <= y -> (rne x <= rne y)%Z.
Proof.
  intros H. destruct (Z.le_gt_cases (rne x) (rne y)) as [Hle | Hgt]; trivial.
  exfalso.
  destruct (rne_near x) as [Hx _]. destruct (rne_near y) as [_ Hy].
  assert (Hz : inject_Z (rne y) + 1 <= inject_Z (rne x)).
  { change 1 with (inject_Z 1). rewrite <- inject_Z_plus, <- Zle_Qle. lia. }
  assert (E : x == y) by (apply Qle_antisym; lra).
  apply rne_comp in E. lia.
Qed.

Lemma rne_Z z : rne (inject_Z z) = z.
Proof.
  unfold rne. rewrite Qfloor_Z.
  assert (E : (inject_Z z - inject_Z z ?= 1 # 2) = Lt).
  { apply Qlt_alt. setoid_replace (inject_Z z - inject_Z z) with 0 by ring.
    reflexivity. }
  rewrite E. reflexivity.
Qed.

Lemma flog2_spec x : 0 < x -> pow2 (flog2 x) <= x /\ x < pow2 (flog2 x + 1).
Proof.
  intros Hx. destruct x as [n d]. unfold flog2. simpl Qnum. simpl Qden.
  assert (Hn : (0 < n)%Z).
  { unfold Qlt in Hx. simpl in Hx. lia. }
  set (a := Z.log2 n). set (b := Z.log2 (Z.pos d)).
  destruct (Z.log2_spec n Hn) as [Ha1 Ha2]. fold a in Ha1, Ha2.
  destruct (Z.log2_spec (Z.pos d) (Pos2Z.is_pos d)) as [Hb1 Hb2].
  fold b in Hb1, Hb2.
  assert (Ha0 : (0 <= a)%Z) by apply Z.log2_nonneg.
  assert (Hb0 : (0 <= b)%Z) by apply Z.log2_nonneg.
  assert (Hxd : (n # d) * inject_Z (Z.pos d) == inject_Z n).
  { unfold Qeq. simpl. lia. }
  assert (Qa1 : pow2 a <= inject_Z n) by (rewrite pow2_Z, <- Zle_Qle; lia).
  assert (Qa2 : inject_Z n < pow2 (a + 1)) by (rewrite pow2_Z, <- Zlt_Qlt; lia).
  assert (Qb1 : pow2 b <= inject_Z (Z.pos d)) by (rewrite pow2_Z, <- Zle_Qle; lia).
  assert (Qb2 : inject_Z (Z.pos d) < pow2 (b + 1)) by (rewrite pow2_Z, <- Zlt_Qlt; lia).
  pose proof (pow2_pos b) as Pb. pose proof (pow2_pos (b + 1)) as Pb1.
  assert (Hup : (n # d) < pow2 (a - b + 1)).
  { apply Qnot_le_lt. intros Hc.
    assert (E : pow2 (a + 1) == pow2 (a - b + 1) * pow2 b).
    { rewrite <- pow2_add. replace (a - b + 1 + b)%Z with (a + 1)%Z by lia. reflexivity. }
    pose proof (pow2_pos (a - b + 1)) as P.
    assert (pow2 (a - b + 1) * pow2 b <= (n # d) * inject_Z (Z.pos d)).
    { apply Qmult_le_compat_nonneg; split; lra. }
    lra. }
  assert (Hlo : pow2 (a - b - 1) <= (n # d)).
  { apply Qnot_lt_le. intros Hc.
    assert (E : pow2 a == pow2 (a - b - 1) * pow2 (b + 1)).
    { rewrite <- pow2_add. replace (a - b - 1 + (b + 1))%Z with a by lia. reflexivity. }
    assert ((n # d) * inject_Z (Z.pos d) < pow2 (a - b - 1) * pow2 (b + 1)).
    { apply Qle_lt_trans with ((n # d) * pow2 (b + 1)).
      - apply Qmult_le_compat_nonneg; split; lra.
      - apply Qmult_lt_compat_r; lra. }
    lra. }
  destruct (Qle_bool (pow2 (a - b)) (n # d)) eqn:E.
  - apply Qle_bool_iff in E. split; assumption.
  - assert (Hlt : (n # d) < pow2 (a - b)).
    { apply Qnot_le_lt. intros Hc. apply Qle_bool_iff in Hc. congruence. }
    replace (a - b - 1 + 1)%Z with (a - b)%Z by lia. split; assumption.
Qed.

Lemma flog2_le x j : 0 < x -> x < pow2 (j + 1) -> (flog2 x <= j)%Z.
Proof.
  intros Hx Hj. destruct (flog2_spec x Hx) as [Hl _].
  assert (H : pow2 (flog2 x) < pow2 (j + 1)) by (eapply Qle_lt_trans; eauto).
  apply pow2_lt_inv in H. lia.
Qed.

Lemma flog2_ge x j : 0 < x -> pow2 j <= x -> (j <= flog2 x)%Z.
Proof.
  intros Hx Hj. destruct (flog2_spec x Hx) as [_ Hu].
  assert (H : pow2 j < pow2 (flog2 x + 1)) by (eapply Qle_lt_trans; eauto).
  apply pow2_lt_inv in H. lia.
Qed.

Lemma roundPos_value x :
  roundPos x == inject_Z (rne (x / pow2 (ulp_exponent x))) * pow2 (ulp_exponent x).
Proof. unfold roundPos. apply Qred_correct. Qed.

Lemma roundDouble_pos x : 0 < x -> roundDouble x = roundPos x.
Proof.
  intros H. unfold roundDouble. apply Qgt_alt in H. rewrite H. reflexivity.
Qed.

Lemma roundDouble_zero x : x == 0 -> roundDouble x = 0.
Proof.
  intros H. unfold roundDouble. apply Qeq_alt in H. rewrite H. reflexivity.
Qed.

(** Rounding cannot step over a double: a value below [pow2 (j + 1)] that
    lies between two multiples of the spacing of doubles in that range
    rounds to a double between them. *)
Lemma roundPos_between x j (mlo mhi : Z) :
  0 < x -> x < pow2 (j + 1) ->
  inject_Z mlo * pow2 (Z.max (j - 52) (-1074)) <= x ->
  x <= inject_Z mhi * pow2 (Z.max (j - 52) (-1074)) ->
  inject_Z mlo * pow2 (Z.max (j - 52) (-1074)) <= roundPos x
  /\ roundPos x <= inject_Z mhi * pow2 (Z.max (j - 52) (-1074)).
Proof.
  intros Hx Hj Hlo Hhi.
  set (K := Z.max (j - 52) (-1074)) in *.
  set (k := ulp_exponent x).
  assert (Hk : (k <= K)%Z).
  { unfold k, K, ulp_exponent. pose proof (flog2_le x j Hx Hj). lia. }
  pose proof (pow2_pos k) as Pk.
  assert (EK : pow2 K == inject_Z (2 ^ (K - k)) * pow2 k).
  { rewrite <- pow2_Z by lia. rewrite <- pow2_add.
    replace (K - k + k)%Z with K by lia. reflexivity. }
  assert (Hgrid : forall m, inject_Z m * pow2 K
                            == inject_Z (m * 2 ^ (K - k)) * pow2 k).
  { intros m. rewrite EK, inject_Z_mult. ring. }
  rewrite roundPos_value. fold k.
  rewrite !Hgrid in *.
  split.
  - apply Qmult_le_compat_r; [| lra]. rewrite <- Zle_Qle.
    rewrite <- (rne_Z (mlo * 2 ^ (K - k))). apply rne_le.
    apply Qle_shift_div_l; assumption.
  - apply Qmult_le_compat_r; [| lra]. rewrite <- Zle_Qle.
    rewrite <- (rne_Z (mhi * 2 ^ (K - k))). apply rne_le.
    apply Qle_shift_div_r; assumption.
Qed.

(** The doubles below 1 end at [1 - 2^-53]. *)
Lemma double_below_one r :
  is_double r -> 0 <= r -> r < 1 -> r <= 1 - pow2 (-53).
Proof.
  intros Hd H0 H1.
  assert (P53 : pow2 (-53) == 1 # 9007199254740992) by reflexivity.
  destruct (Qlt_le_dec r (1 # 2)) as [Hs | Hs]; [lra |].
  assert (Hr : 0 < r) by lra.
  assert (Hf : flog2 r = (-1)%Z).
  { apply Z.le_antisymm.
    - apply flog2_le; trivial.
    - apply flog2_ge; trivial. }
  unfold is_double in Hd. rewrite (roundDouble_pos r Hr), roundPos_value in Hd.
  unfold ulp_exponent in Hd. rewrite Hf in Hd.
  change (Z.max (-1 - 52) (-1074)) with (-53)%Z in Hd.
  set (m := rne (r / pow2 (-53))) in *.
  assert (Hm : (m < 2 ^ 53)%Z).
  { rewrite Zlt_Qlt. rewrite P53 in Hd.
    change (inject_Z (2 ^ 53)) with (9007199254740992 # 1). lra. }
  assert (Hm' : inject_Z m <= inject_Z (2 ^ 53 - 1)) by (rewrite <- Zle_Qle; lia).
  change (inject_Z (2 ^ 53 - 1)) with (9007199254740991 # 1) in Hm'.
  rewrite P53 in *. lra.
Qed.

Lemma mul_400_range r :
  0 <= r -> r < 1 -> 0 <= mul r 400 /\ mul r 400 <= 400.
Proof.
  intros H0 H1. unfold mul.
  destruct (Qlt_le_dec 0 r) as [Hr | Hr].
  - assert (Hx : 0 < r * 400) by lra.
    rewrite (roundDouble_pos _ Hx).
    assert (P9 : pow2 (8 + 1) == 512) by reflexivity.
    assert (Elo : inject_Z 0 * pow2 (Z.max (8 - 52) (-1074)) == 0) by reflexivity.
    assert (Ehi : inject_Z (400 * 2 ^ 44) * pow2 (Z.max (8 - 52) (-1074)) == 400)
      by reflexivity.
    pose proof (roundPos_between (r * 400) 8 0 (400 * 2 ^ 44) Hx) as G.
    rewrite P9, Elo, Ehi in G. apply G; lra.
  - rewrite roundDouble_zero; [split; discriminate |].
    assert (E : r == 0) by (apply Qle_antisym; assumption).
    rewrite E. reflexivity.
Qed.

Lemma rne_below_mid x (M : Z) : x < inject_Z M + (1 # 2) -> (rne x <= M)%Z.
Proof.
  intros H. destruct (rne_near x) as [Hl _].
  assert (Hlt : inject_Z (rne x) < inject_Z (M + 1)).
  { rewrite inject_Z_plus. change (inject_Z 1) with 1. lra. }
  rewrite <- Zlt_Qlt in Hlt. lia.
Qed.

Lemma mul_400_strict r :
  is_double r -> 0 <= r -> r < 1 -> mul r 400 < 400.
Proof.
  intros Hd H0 H1. pose proof (double_below_one r Hd H0 H1) as Hmax.
  assert (P53 : pow2 (-53) == 1 # 9007199254740992) by reflexivity.
  rewrite P53 in Hmax. unfold mul.
  destruct (Qlt_le_dec 0 r) as [Hr | Hr].
  - assert (Hx : 0 < r * 400) by lra.
    rewrite (roundDouble_pos _ Hx).
    assert (P8 : pow2 8 == 256) by reflexivity.
    assert (P9 : pow2 (8 + 1) == 512) by reflexivity.
    destruct (Qlt_le_dec (r * 400) 256) as [Hs | Hs].
    + assert (Elo : inject_Z 0 * pow2 (Z.max (7 - 52) (-1074)) == 0) by reflexivity.
      assert (Ehi : inject_Z (256 * 2 ^ 45) * pow2 (Z.max (7 - 52) (-1074)) == 256)
        by reflexivity.
      pose proof (roundPos_between (r * 400) 7 0 (256 * 2 ^ 45) Hx) as G.
      change (pow2 (7 + 1)) with (pow2 8) in G. rewrite P8, Elo, Ehi in G.
      assert (Hh : roundPos (r * 400) <= 256) by (apply G; lra).
      lra.
    + assert (Hf : flog2 (r * 400) = 8%Z).
      { apply Z.le_antisymm.
        - apply flog2_le; [exact Hx |]. rewrite P9; lra.
        - apply flog2_ge; [exact Hx |]. rewrite P8; exact Hs. }
      rewrite roundPos_value. unfold ulp_exponent. rewrite Hf.
      change (Z.max (8 - 52) (-1074)) with (-44)%Z.
      assert (Hm : (rne (r * 400 / pow2 (-44)) <= 400 * 2 ^ 44 - 1)%Z).
      { apply rne_below_mid. apply Qlt_shift_div_r; [apply pow2_pos |].
        assert (E : (inject_Z (400 * 2 ^ 44 - 1) + (1 # 2)) * pow2 (-44)
                    == 400 - (1 # 35184372088832)) by reflexivity.
        rewrite E. lra. }
      rewrite Zle_Qle in Hm.
      assert (E : inject_Z (400 * 2 ^ 44 - 1) * pow2 (-44)
                  == 400 - (1 # 17592186044416)) by reflexivity.
      pose proof (pow2_pos (-44)) as P.
      assert (inject_Z (rne (r * 400 / pow2 (-44))) * pow2 (-44)
              <= inject_Z (400 * 2 ^ 44 - 1) * pow2 (-44)).
      { apply Qmult_le_compat_r; [exact Hm | lra]. }
      lra.
  - rewrite roundDouble_zero; [reflexivity |].
    assert (E : r == 0) by (apply Qle_antisym; assumption).
    rewrite E. reflexivity.
Qed.

Lemma add_range (b : Z) (j : Q) :
  (0 < b)%Z -> (b <= 5000)%Z -> 0 <= j -> j <= 400 ->
  inject_Z b <= add (inject_Z b) j /\ add (inject_Z b) j <= inject_Z b + 400.
Proof.
  intros Hb0 Hb1 Hj0 Hj1. unfold add.
  assert (Qb0 : 0 < inject_Z b) by (change 0 with (inject_Z 0); rewrite <- Zlt_Qlt; lia).
  assert (Qb1 : inject_Z b <= 5000) by (change 5000 with (inject_Z 5000); rewrite <- Zle_Qle; lia).
  assert (Hx : 0 < inject_Z b + j) by lra.
  rewrite (roundDouble_pos _ Hx).
  assert (P53 : pow2 (52 + 1) == 9007199254740992) by reflexivity.
  assert (E : forall m, inject_Z m * pow2 (Z.max (52 - 52) (-1074)) == inject_Z m).
  { intros m. change (pow2 (Z.max (52 - 52) (-1074))) with 1. ring. }
  pose proof (roundPos_between (inject_Z b + j) 52 b (b + 400) Hx) as G.
  rewrite P53, !E, inject_Z_plus in G. change (inject_Z 400) with 400 in G.
  apply G; lra.
Qed.

End NumberFacts.

(* ===================================================================== *)
(** ** Reconnection *)
(* ===================================================================== *)

Module SocketFacts.
Import Client.

Lemma scheduledDelay_onclose random s :
  cancelled s = false ->
  scheduledDelay (onclose random s)
  = Some (Js.add (inject_Z (baseDelay (retryRef s + 1))) (Js.mul random 400)).
Proof.
  intros Hc. unfold onclose, scheduledDelay. rewrite Hc. simpl.
  rewrite length_app. simpl.
  replace (length (timeouts s) + 1 - 1)%nat with (length (timeouts s)) by lia.
  rewrite nth_error_app2 by lia. rewrite Nat.sub_diag. reflexivity.
Qed.

(** [ws.onopen] clears the displayed counter and leaves the ref that
    feeds the backoff as it was. *)
Lemma onopen_retry elapsed s :
  cancelled s = false ->
  connectionState (onopen elapsed s) = connected
  /\ retryCount (onopen elapsed s) = 0
  /\ retryRef (onopen elapsed s) = retryRef s.
Proof. intros Hc. unfold onopen. rewrite Hc. simpl. auto. Qed.

(** C5 on the code.  A socket that closes once, reconnects and opens,
    shows a retry count of 0 while its ref still holds 1; when it closes
    again the count becomes 2 and the reconnection is scheduled after
    1000 ms (with a jitter of 0), not after the 500 ms of a first retry. *)
Theorem retry_survives_reconnect :
  let s1 := runSocket [Closed 0; TimerFired; Opened 12] (connect initial) in
  let s2 := onclose 0 s1 in
  connectionState s1 = connected
  /\ retryCount s1 = 0
  /\ retryRef s1 = 1
  /\ retryCount s2 = 2
  /\ scheduledDelay s2 = Some (1000 # 1)%Q
  /\ scheduledDelay (onclose 0 (connect initial)) = Some (500 # 1)%Q.
Proof. cbv zeta. repeat split; vm_compute; reflexivity. Qed.

Lemma baseDelay_range n : 1 <= n -> 500 <= baseDelay n <= 5000.
Proof. intros H. unfold baseDelay. lia. Qed.

(** C6, as the code has it.  When a live socket closes for the [n]-th
    time counted by the ref ([n >= 1]) and [Math.random()] returns the
    double [random] of [0, 1), the hook shows retry count [n] and
    schedules the reconnection after the double sum of [min(5000, 500 n)]
    and the jitter [random * 400].  The jitter, a double product, lies in
    [0, 400); the sum, rounded to a double, lies between the base delay
    and the base delay plus 400, both included.  The base delays for
    [n = 1 .. 20] are listed. *)
Theorem backoff_delay (n : Z) (random : Q) (s : Socket) :
  1 <= n ->
  cancelled s = false ->
  retryRef s = n - 1 ->
  Js.is_double random ->
  (0 <= random)%Q -> (random < 1)%Q ->
  let s' := onclose random s in
  let base := inject_Z (Z.min 5000 (500 * n)) in
  let jitter := Js.mul random 400 in
  connectionState s' = disconnected
  /\ retryCount s' = n
  /\ scheduledDelay s' = Some (Js.add base jitter)
  /\ ((0 <= jitter)%Q /\ (jitter < 400)%Q)
  /\ ((base <= Js.add base jitter)%Q /\ (Js.add base jitter <= base + 400)%Q)
  /\ map baseDelay [1; 2; 3; 4; 5; 6; 7; 8; 9; 10;
                    11; 12; 13; 14; 15; 16; 17; 18; 19; 20]
     = [500; 1000; 1500; 2000; 2500; 3000; 3500; 4000; 4500; 5000;
        5000; 5000; 5000; 5000; 5000; 5000; 5000; 5000; 5000; 5000].
Proof.
  intros Hn Hc Href Hd H0 H1. cbv zeta.
  destruct (NumberFacts.mul_400_range random H0 H1) as [Hj0 Hj1].
  pose proof (NumberFacts.mul_400_strict random Hd H0 H1) as Hj.
  split; [unfold onclose; rewrite Hc; reflexivity |].
  split; [unfold onclose; rewrite Hc; simpl; lia |].
  split.
  { rewrite scheduledDelay_onclose by exact Hc.
    replace (retryRef s + 1) with n by lia. reflexivity. }
  split; [split; assumption |].
  split; [| reflexivity].
  apply NumberFacts.add_range; trivial; lia.
Qed.

Lemma backoff_delay_witness :
  let s' := onclose (1 # 2) (onclose 0 (onclose 0 (connect initial))) in
  let base := inject_Z (Z.min 5000 (500 * 3)) in
  let jitter := Js.mul (1 # 2) 400 in
  connectionState s' = disconnected
  /\ retryCount s' = 3
  /\ scheduledDelay s' = Some (Js.add base jitter)
  /\ ((0 <= jitter)%Q /\ (jitter < 400)%Q)
  /\ ((base <= Js.add base jitter)%Q /\ (Js.add base jitter <= base + 400)%Q)
  /\ map baseDelay [1; 2; 3; 4; 5; 6; 7; 8; 9; 10;
                    11; 12; 13; 14; 15; 16; 17; 18; 19; 20]
     = [500; 1000; 1500; 2000; 2500; 3000; 3500; 4000; 4500; 5000;
        5000; 5000; 5000; 5000; 5000; 5000; 5000; 5000; 5000; 5000].
Proof.
  apply (backoff_delay 3 (1 # 2) (onclose 0 (onclose 0 (connect initial)))).
  - lia.
  - reflexivity.
  - vm_compute. reflexivity.
  - vm_compute. reflexivity.
  - discriminate.
  - reflexivity.
Defined.

(** C6 fails as stated.  At the tenth close in a row, when [Math.random()]
    returns the largest double below 1, the jitter is [400 - 2^-44] and
    the sum [5000 + jitter] rounds to 5400 exactly: the delay exceeds the
    base delay by 400, which is no value of [0, 400). *)
Lemma delay_reaches_base_plus_400 :
  let s := runSocket Samples.nine_closes (connect initial) in
  let s' := onclose Samples.largest_draw s in
  Js.is_double Samples.largest_draw
  /\ (0 <= Samples.largest_draw)%Q /\ (Samples.largest_draw < 1)%Q
  /\ retryCount s' = 10
  /\ Js.mul Samples.largest_draw 400 = (7036874417766399 # 17592186044416)%Q
  /\ scheduledDelay s' = Some (5400 # 1)%Q
  /\ ~ (exists jitter : Q,
           (0 <= jitter)%Q /\ (jitter < 400)%Q
           /\ (5400 # 1 == inject_Z (Z.min 5000 (500 * 10)) + jitter)%Q).
Proof.
  cbv zeta. repeat split; try (vm_compute; reflexivity).
  - discriminate.
  - intros (jitter & H0 & H1 & E).
    change (inject_Z (Z.min 5000 (500 * 10))) with 5000%Q in E. lra.
Qed.

End SocketFacts.

(* ===================================================================== *)
(** ** The hub over a run of events *)
(* ===================================================================== *)

Module HubRuns.
Import Server.

Lemma set_add_In ws c s : In c (set_add ws s) <-> c = ws \/ In c s.
Proof.
  unfold set_add. destruct (existsb (Nat.eqb ws) s) eqn:E.
  - split; [auto |]. intros [-> | H]; trivial.
    apply existsb_exists in E as (x & Hx & Hxe).
    apply Nat.eqb_eq in Hxe. subst x. exact Hx.
  - rewrite in_app_iff. simpl. intuition.
Qed.

Lemma set_add_NoDup ws s : NoDup s -> NoDup (set_add ws s).
Proof.
  intros H. unfold set_add. destruct (existsb (Nat.eqb ws) s) eqn:E; trivial.
  apply NoDup_app; trivial.
  - repeat constructor. intros [].
  - intros x Hx [Ex | []]. subst x.
    assert (existsb (Nat.eqb ws) s = true) as Ht.
    { apply existsb_exists. exists ws. split; trivial. apply Nat.eqb_refl. }
    congruence.
Qed.

Lemma set_delete_In ws c s : In c (set_delete ws s) <-> c <> ws /\ In c s.
Proof.
  unfold set_delete. rewrite filter_In, negb_true_iff, Nat.eqb_neq. tauto.
Qed.

Lemma set_delete_NoDup ws s : NoDup s -> NoDup (set_delete ws s).
Proof. apply NoDup_filter. Qed.

Lemma frames_to_app c e1 e2 :
  frames_to c (e1 ++ e2) = frames_to c e1 ++ frames_to c e2.
Proof.
  induction e1 as [| [b | c' p] rest IH]; simpl; trivial.
  destruct (Nat.eqb c' c); simpl; congruence.
Qed.

(** In a duplicate-free set each member finds a broadcast frame once, if
    its socket took it, and never otherwise. *)
Lemma frames_to_broadcast c msg (acc : Conn -> bool) members :
  NoDup members ->
  frames_to c (map (delivery msg) (filter acc members))
  = if acc c && existsb (Nat.eqb c) members then [msg] else [].
Proof.
  induction members as [| x rest IH]; intros Hnd; simpl.
  - rewrite andb_false_r. reflexivity.
  - inversion Hnd as [| ? ? Hx Hrest]; subst.
    specialize (IH Hrest).
    destruct (Nat.eqb_spec c x) as [E | Hne].
    + subst x.
      assert (existsb (Nat.eqb c) rest = false) as Hex.
      { destruct (existsb (Nat.eqb c) rest) eqn:E; trivial.
        apply existsb_exists in E as (y & Hy & Hye).
        apply Nat.eqb_eq in Hye. subst y. contradiction. }
      rewrite Hex, andb_false_r in IH. rewrite orb_true_l, andb_true_r.
      destruct (acc c); simpl.
      * rewrite Nat.eqb_refl, IH. reflexivity.
      * exact IH.
    + rewrite orb_false_l. destruct (acc x); simpl.
      * destruct (Nat.eqb_spec x c); [congruence | exact IH].
      * exact IH.
Qed.

Section Network.
Variable send : Conn -> Message -> SendResult.

Lemma bind_run (m k : Hub unit) w :
  (m ;; k) w
  = match completion (m w) with
    | Normal _ => (completion (k (world_of (m w))),
                   world_of (k (world_of (m w))),
                   effects (m w) ++ effects (k (world_of (m w))))
    | Throw => (Throw, world_of (m w), effects (m w))
    end.
Proof.
  unfold bind, completion, world_of, effects.
  destruct (m w) as [[[a |] w1] e1]; simpl; trivial.
  destruct (k w1) as [[r w2] e2]. reflexivity.
Qed.

Lemma updateBuffer_run f w :
  updateBuffer f w
  = (Normal tt, {| messageBuffer := f (messageBuffer w); clients := clients w |},
     [BufferUpdated (f (messageBuffer w))]).
Proof. reflexivity. Qed.

Lemma forEach_send_raises members msg w :
  (exists c, In c members /\ send c msg = Raised) ->
  completion (forEach members (fun c => client_send send c msg) w) = Throw.
Proof.
  intros (c & Hin & Hr). induction members as [| x rest IH]; [destruct Hin |].
  simpl. rewrite HubFacts.client_send_then.
  destruct (send x msg) eqn:E; unfold completion in *; simpl; trivial.
  - apply IH. destruct Hin as [-> | Hin]; [congruence | exact Hin].
  - apply IH. destruct Hin as [-> | Hin]; [congruence | exact Hin].
Qed.

(** What a handler does when no socket throws. *)
Lemma publish_run p w :
  (forall c msg, send c msg <> Raised) ->
  publish send p w
  = match frame_of p (messageBuffer w) with
    | None => (Normal tt, w, [])
    | Some msg =>
        let b := bufferEffect p (messageBuffer w) in
        (Normal tt, {| messageBuffer := b; clients := clients w |},
         if creates p then BufferUpdated b :: fanout send msg w
         else fanout send msg w ++ [BufferUpdated b])
    end.
Proof.
  intros Hno.
  assert (Hcreate : forall m,
             broadcastChatMessage send m w
             = (Normal tt,
                {| messageBuffer := addToBuffer m (messageBuffer w);
                   clients := clients w |},
                BufferUpdated (addToBuffer m (messageBuffer w))
                  :: fanout send (MsgChat m) w)).
  { intros m. unfold broadcastChatMessage. rewrite bind_run, updateBuffer_run.
    unfold completion, world_of, effects. simpl.
    rewrite HubFacts.broadcastMessage_total by (intros; apply Hno).
    reflexivity. }
  assert (Hlater : forall msg f,
             (broadcastMessage send msg ;; updateBuffer f) w
             = (Normal tt,
                {| messageBuffer := f (messageBuffer w); clients := clients w |},
                fanout send msg w ++ [BufferUpdated (f (messageBuffer w))])).
  { intros msg f. rewrite bind_run.
    rewrite HubFacts.broadcastMessage_total by (intros; apply Hno).
    reflexivity. }
  destruct p as [m | i t n a c | m | m | targetId]; simpl.
  - unfold messageCreate. destruct (inChannel m); simpl; [apply Hcreate | reflexivity].
  - apply Hcreate.
  - unfold messageUpdate. rewrite HubFacts.getBuffer_bind.
    destruct (inChannel m); simpl; [| reflexivity].
    destruct (existsb _ (messageBuffer w)); simpl; [apply Hlater | reflexivity].
  - unfold messageDelete. destruct (inChannel m); simpl; [apply Hlater | reflexivity].
  - apply Hlater.
Qed.

(** C3, as the code has it.  When no socket throws, a handler with a
    frame to broadcast does exactly this: for a created message it writes
    the buffer with the message appended and then puts the frame on the
    socket of every member that takes it; for an edit or a delete it puts
    the frame on those sockets first and writes the edited or reduced
    buffer afterwards.  It returns with that buffer, so a connection that
    joins next is sent it as history.  Whatever the sockets do, the writes
    come before the frames for a create and after them otherwise. *)
Theorem publish_order (p : Publication) (w : World) :
  let r := publish send p w in
  let b := bufferEffect p (messageBuffer w) in
  (if creates p
   then buffer_then_fanout (effects r) = true
   else fanout_then_buffer (effects r) = true)
  /\ ((forall c msg, send c msg <> Raised) ->
      (forall msg,
          frame_of p (messageBuffer w) = Some msg ->
          r = (Normal tt, {| messageBuffer := b; clients := clients w |},
               if creates p then BufferUpdated b :: fanout send msg w
               else fanout send msg w ++ [BufferUpdated b]))
      /\ (relayed p = true ->
          completion r = Normal tt
          /\ messageBuffer (world_of r) = b
          /\ forall ws,
              effects ((publish send p ;; open send ws) w)
              = effects r ++ historyFrame send ws b)).
Proof.
  cbv zeta. destruct (HubFacts.publish_relayed send p w) as [Hord Hrel].
  split; [exact Hord |]. intros Hno. split.
  - intros msg Hf. rewrite (publish_run p w Hno), Hf. reflexivity.
  - intros Hr. apply Hrel; assumption.
Qed.

(** Whatever the sockets do, a handler leaves the set of connections alone
    and leaves the buffer either as it was or with the event applied. *)
Lemma publish_world p w :
  let w' := world_of (publish send p w) in
  clients w' = clients w
  /\ (messageBuffer w' = messageBuffer w
      \/ messageBuffer w' = bufferEffect p (messageBuffer w)).
Proof.
  cbv zeta.
  assert (Hcreate : forall m,
             let w' := world_of (broadcastChatMessage send m w) in
             clients w' = clients w
             /\ (messageBuffer w' = messageBuffer w
                 \/ messageBuffer w' = addToBuffer m (messageBuffer w))).
  { intros m. cbv zeta.
    destruct (HubFacts.update_then_broadcast send m w) as (_ & Hc & Hb). auto. }
  assert (Hlater : forall msg f,
             let w' := world_of ((broadcastMessage send msg ;; updateBuffer f) w) in
             clients w' = clients w
             /\ (messageBuffer w' = messageBuffer w
                 \/ messageBuffer w' = f (messageBuffer w))).
  { intros msg f. cbv zeta. rewrite bind_run.
    rewrite HubFacts.broadcastMessage_world.
    destruct (completion (broadcastMessage send msg w)); unfold world_of; simpl; auto. }
  destruct p as [m | i t n a c | m | m | targetId]; simpl.
  - unfold messageCreate. destruct (inChannel m); simpl; [apply Hcreate | auto].
  - apply Hcreate.
  - unfold messageUpdate. rewrite HubFacts.getBuffer_bind.
    destruct (negb (inChannel m) || negb (existsb _ (messageBuffer w)));
      simpl; [auto | apply Hlater].
  - unfold messageDelete. destruct (inChannel m); simpl; [apply Hlater | auto].
  - apply Hlater.
Qed.

Lemma open_world ws w :
  world_of (open send ws w)
  = {| messageBuffer := messageBuffer w; clients := set_add ws (clients w) |}.
Proof.
  unfold open. rewrite bind_run. unfold completion, world_of, effects. simpl.
  rewrite HubFacts.getBuffer_bind. simpl.
  destruct (0 <? length (messageBuffer w))%nat; simpl; trivial.
  unfold client_send. destruct (send ws _); reflexivity.
Qed.

Lemma serve_cons ev rest w :
  serve send (ev :: rest) w
  = match completion (handle send ev w) with
    | Normal _ =>
        (completion (serve send rest (world_of (handle send ev w))),
         world_of (serve send rest (world_of (handle send ev w))),
         effects (handle send ev w)
           ++ effects (serve send rest (world_of (handle send ev w))))
    | Throw => (Throw, world_of (handle send ev w), effects (handle send ev w))
    end.
Proof. simpl. apply bind_run. Qed.

(** An invariant of the world that every callback keeps, however it ends,
    holds after every run. *)
Lemma serve_invariant (P : World -> Prop) :
  (forall ev w, P w -> P (world_of (handle send ev w))) ->
  forall evs w, P w -> P (world_of (serve send evs w)).
Proof.
  intros Hstep evs. induction evs as [| ev rest IH]; intros w Hw.
  - exact Hw.
  - rewrite serve_cons. specialize (Hstep ev w Hw).
    destruct (completion (handle send ev w)); unfold world_of at 1; simpl.
    + apply IH, Hstep.
    + exact Hstep.
Qed.

Lemma handle_world ev w :
  let w' := world_of (handle send ev w) in
  (messageBuffer w' = messageBuffer w
   \/ exists p, ev = Publish p
                /\ messageBuffer w' = bufferEffect p (messageBuffer w))
  /\ clients w' = match ev with
                  | Join ws => set_add ws (clients w)
                  | Leave ws => set_delete ws (clients w)
                  | Publish _ => clients w
                  end.
Proof.
  cbv zeta. destruct ev as [ws | ws | p]; simpl.
  - rewrite open_world. simpl. auto.
  - unfold close, world_of. simpl. auto.
  - destruct (publish_world p w) as [Hc [Hb | Hb]]; split; eauto.
Qed.

(** X1.  The buffer never grows past 100 entries: if it holds at most 100
    when a run of joins, leaves and publications starts, it holds at most
    100 when the run ends, whether the sockets take, refuse or throw. *)
Theorem buffer_stays_bounded (evs : list HubEvent) (w : World) :
  (length (messageBuffer w) <= 100)%nat ->
  (length (messageBuffer (world_of (serve send evs w))) <= 100)%nat.
Proof.
  apply (serve_invariant (fun w => (length (messageBuffer w) <= 100)%nat)).
  intros ev w0 H0. destruct (handle_world ev w0) as [[Hb | (p & _ & Hb)] _].
  - rewrite Hb. exact H0.
  - rewrite Hb. apply ServerFacts.bufferEffect_bound. exact H0.
Qed.

(** X2.  The connections stay a set: a run that starts without repetition
    among the members ends without repetition, and whoever is a member at
    the end was one at the start or joined during the run. *)
Theorem clients_stay_a_set (evs : list HubEvent) (w : World) :
  NoDup (clients w) ->
  NoDup (clients (world_of (serve send evs w)))
  /\ forall c, In c (clients (world_of (serve send evs w))) ->
               In c (clients w) \/ In (Join c) evs.
Proof.
  intros Hnd. split.
  - revert w Hnd.
    apply (serve_invariant (fun w => NoDup (clients w))).
    intros ev w0 H0. destruct (handle_world ev w0) as [_ Hc]. rewrite Hc.
    destruct ev; [apply set_add_NoDup | apply set_delete_NoDup |]; exact H0.
  - clear Hnd. revert w. induction evs as [| ev rest IH]; intros w c Hc.
    + left. exact Hc.
    + rewrite serve_cons in Hc.
      assert (Hstep : In c (clients (world_of (handle send ev w))) ->
                      In c (clients w) \/ In (Join c) (ev :: rest)).
      { intros H. destruct (handle_world ev w) as [_ Hcl]. rewrite Hcl in H.
        destruct ev as [ws | ws | p].
        - apply set_add_In in H as [-> | H]; [right; left; reflexivity | auto].
        - apply set_delete_In in H as [_ H]. auto.
        - auto. }
      destruct (completion (handle send ev w)); unfold world_of at 1 in Hc;
        simpl in Hc.
      * destruct (IH _ _ Hc) as [H | H]; [apply Hstep, H | right; right; exact H].
      * apply Hstep, Hc.
Qed.

(** X3.  The Discord handlers drop what is not theirs: a create, update or
    delete from outside the relayed channel, and an update for an id the
    buffer does not hold, return without a frame on any socket and without
    touching the buffer or the connections, whatever the sockets would do. *)
Theorem ignored_events (m : GuildMessage) (w : World) :
  (inChannel m = false ->
   messageCreate send m w = (Normal tt, w, [])
   /\ messageUpdate send m w = (Normal tt, w, [])
   /\ messageDelete send m w = (Normal tt, w, []))
  /\ ((forall e, In e (messageBuffer w) -> id e <> gm_id m) ->
      messageUpdate send m w = (Normal tt, w, [])).
Proof.
  split.
  - intros Hout. unfold messageCreate, messageUpdate, messageDelete.
    rewrite HubFacts.getBuffer_bind, Hout. simpl. auto.
  - intros Hmiss. unfold messageUpdate. rewrite HubFacts.getBuffer_bind.
    assert (existsb (fun e => String.eqb (id e) (gm_id m)) (messageBuffer w)
            = false) as Hex.
    { destruct (existsb _ (messageBuffer w)) eqn:E; trivial.
      apply existsb_exists in E as (e & He & Heq).
      apply String.eqb_eq in Heq. exfalso. exact (Hmiss e He Heq). }
    rewrite Hex. simpl. rewrite orb_true_r. reflexivity.
Qed.

(** X4.  A delete is relayed without looking at the buffer: for an id the
    buffer does not hold, every member whose socket takes frames still gets
    the delete frame, and the buffer keeps its contents. *)
Theorem unknown_delete_is_relayed (w : World) :
  (forall c m, send c m <> Raised) ->
  (forall targetId,
      (forall e, In e (messageBuffer w) -> id e <> targetId) ->
      handleAction send (markChatItemAsDeletedAction targetId) w
      = (Normal tt, w,
         fanout send (MsgDelete (mkDelete youtube targetId)) w
           ++ [BufferUpdated (messageBuffer w)]))
  /\ (forall m,
         inChannel m = true ->
         (forall e, In e (messageBuffer w) -> id e <> gm_id m) ->
         messageDelete send m w
         = (Normal tt, w,
            fanout send (MsgDelete (mkDelete discord (gm_id m))) w
              ++ [BufferUpdated (messageBuffer w)])).
Proof.
  intros Hno. split.
  - intros targetId Hmiss.
    change (handleAction send (markChatItemAsDeletedAction targetId))
      with (publish send (DeleteOnYouTube targetId)).
    rewrite (publish_run _ w Hno). simpl.
    rewrite (ServerFacts.removeFromBuffer_miss _ _ Hmiss).
    destruct w; reflexivity.
  - intros m Hin Hmiss.
    change (messageDelete send m) with (publish send (DeleteOnDiscord m)).
    rewrite (publish_run _ w Hno). simpl. rewrite Hin.
    rewrite (ServerFacts.removeFromBuffer_miss _ _ Hmiss).
    destruct w; reflexivity.
Qed.

(** X5.  A socket that throws ends the fan-out where it stands: the
    members before it in the set are served as usual, it and every member
    after it get nothing, the exception leaves [broadcastMessage], and the
    hub is as it was. *)
Theorem fanout_stops_at_throw (msg : Message) (w : World)
        (pre : list Conn) (c : Conn) (post : list Conn) :
  clients w = pre ++ c :: post ->
  (forall x, In x pre -> send x msg <> Raised) ->
  send c msg = Raised ->
  broadcastMessage send msg w
  = (Throw, w,
     map (delivery msg) (filter (fun x => accepted (send x msg)) pre)).
Proof.
  intros Hcl Hpre Hc. unfold broadcastMessage. rewrite Hcl. clear Hcl.
  induction pre as [| x rest IH]; simpl.
  - rewrite HubFacts.client_send_then, Hc. reflexivity.
  - rewrite HubFacts.client_send_then.
    rewrite IH by (intros y Hy; apply Hpre; simpl; auto).
    assert (Hx : send x msg <> Raised) by (apply Hpre; simpl; auto).
    destruct (send x msg); simpl; try reflexivity. congruence.
Qed.

(** X6.  When a member's socket throws, a handler that has a frame to
    broadcast ends with the exception and the connections are kept; a
    created message is in the buffer all the same, since it is stored
    before the fan-out, while an edit or a delete is lost to the buffer,
    since it is applied after. *)
Theorem throwing_socket (p : Publication) (msg : Message) (w : World) (c : Conn) :
  In c (clients w) ->
  (forall m, send c m = Raised) ->
  frame_of p (messageBuffer w) = Some msg ->
  let r := publish send p w in
  completion r = Throw
  /\ clients (world_of r) = clients w
  /\ messageBuffer (world_of r)
     = if creates p then bufferEffect p (messageBuffer w) else messageBuffer w.
Proof.
  intros Hin Hr Hf. cbv zeta.
  assert (Hthrow : forall m w0, clients w0 = clients w ->
                                completion (broadcastMessage send m w0) = Throw).
  { intros m w0 Hw0. unfold broadcastMessage.
    apply forEach_send_raises. exists c. rewrite Hw0. auto. }
  assert (Hcreate : forall m,
             let r := broadcastChatMessage send m w in
             completion r = Throw
             /\ clients (world_of r) = clients w
             /\ messageBuffer (world_of r) = addToBuffer m (messageBuffer w)).
  { intros m. cbv zeta.
    destruct (HubFacts.update_then_broadcast send m w) as (_ & Hc & Hb).
    split; [| split; assumption].
    unfold broadcastChatMessage. rewrite bind_run, updateBuffer_run.
    unfold completion at 1, world_of at 1 2. simpl.
    rewrite Hthrow by reflexivity. reflexivity. }
  assert (Hlater : forall m f,
             let r := (broadcastMessage send m ;; updateBuffer f) w in
             completion r = Throw
             /\ clients (world_of r) = clients w
             /\ messageBuffer (world_of r) = messageBuffer w).
  { intros m f. cbv zeta. rewrite bind_run, Hthrow by reflexivity.
    unfold completion, world_of. simpl.
    fold (world_of (broadcastMessage send m w)).
    rewrite HubFacts.broadcastMessage_world. auto. }
  destruct p as [m | i t n a x | m | m | targetId]; simpl in *.
  - unfold messageCreate. destruct (inChannel m); [apply Hcreate | discriminate].
  - apply Hcreate.
  - unfold messageUpdate. rewrite HubFacts.getBuffer_bind.
    destruct (inChannel m); simpl in *; [| discriminate].
    destruct (existsb _ (messageBuffer w)); simpl in *; [apply Hlater | discriminate].
  - unfold messageDelete. destruct (inChannel m); simpl; [apply Hlater | discriminate].
  - apply Hlater.
Qed.

End Network.
End HubRuns.

(* ===================================================================== *)
(** ** The reducer: misses, composition, streams *)
(* ===================================================================== *)

Module ReducerRuns.
Import Client.

Lemma insert_below x l :
  Forall (ts_le x) l -> Js.insert byTimestamp x l = x :: l.
Proof.
  intros H. destruct l as [| h t]; simpl; trivial.
  inversion H as [| ? ? Hh _]; subst. unfold ts_le in Hh. unfold byTimestamp.
  destruct (Z.leb_spec (timestamp x - timestamp h) 0); [reflexivity | lia].
Qed.

Lemma sort_sorted_id l : StronglySorted ts_le l -> Js.sort byTimestamp l = l.
Proof.
  induction 1 as [| x l Hs IH Hx]; simpl.
  - reflexivity.
  - rewrite IH. apply insert_below, Hx.
Qed.

Lemma state_eta s : s = mkState (messages s).
Proof. destruct s. reflexivity. Qed.

Lemma map_id_on {A} (f : A -> A) l : (forall x, In x l -> f x = x) -> map f l = l.
Proof.
  induction l as [| h t IH]; simpl; intros H; trivial.
  rewrite H by auto. rewrite IH; auto.
Qed.

Lemma filter_all {A} (f : A -> bool) l :
  (forall x, In x l -> f x = true) -> filter f l = l.
Proof.
  induction l as [| h t IH]; simpl; intros H; trivial.
  rewrite H by auto. rewrite IH; auto.
Qed.

(** X7.  A history whose messages already come in ascending timestamp
    order becomes the view as it is; and sorting is idempotent, so feeding
    a view back as a history changes nothing. *)
Theorem sorted_history_is_kept (s : ChatState) (ms : list ChatMessage) :
  StronglySorted ts_le ms ->
  chatReducer s (history ms) = mkState ms
  /\ forall ms', chatReducer s (history (messages (chatReducer s (history ms'))))
                 = chatReducer s (history ms').
Proof.
  intros Hs. split.
  - simpl. rewrite sort_sorted_id by exact Hs. reflexivity.
  - intros ms'. simpl. rewrite sort_sorted_id; trivial.
    apply ReducerFacts.sort_sorted.
Qed.

Lemma edit_miss s e :
  (forall m, In m (messages s) -> id m <> edit_id e) ->
  chatReducer s (edit e) = s.
Proof.
  intros Hmiss. rewrite (state_eta s) at 2. simpl. f_equal.
  apply map_id_on. intros m Hm.
  destruct (String.eqb_spec (id m) (edit_id e)) as [E | E]; trivial.
  exfalso. exact (Hmiss m Hm E).
Qed.

Lemma delete_miss s d :
  (forall m, In m (messages s) ->
             ~ (platform m = del_platform d /\ id m = del_id d)) ->
  chatReducer s (delete d) = s.
Proof.
  intros Hmiss. rewrite (state_eta s) at 2. simpl. f_equal.
  apply filter_all. intros m Hm. apply negb_true_iff, andb_false_iff.
  destruct (platform_eqb (platform m) (del_platform d)) eqn:Ep; [| auto].
  right. apply String.eqb_neq. intros Ei.
  apply TypesFacts.platform_eqb_eq in Ep. exact (Hmiss m Hm (conj Ep Ei)).
Qed.

(** X8.  An edit for an id the view does not hold, and a delete for a
    (platform, id) pair the view does not hold, leave the state as it is. *)
Theorem unknown_target_is_noop (s : ChatState) :
  (forall e, (forall m, In m (messages s) -> id m <> edit_id e) ->
             chatReducer s (edit e) = s)
  /\ (forall d, (forall m, In m (messages s) ->
                           ~ (platform m = del_platform d /\ id m = del_id d)) ->
                chatReducer s (delete d) = s).
Proof. split; [apply edit_miss | apply delete_miss]. Qed.


(** X10.  An edit touches the content and the edited flag only: the view
    keeps its length and, position by position, the platform, id,
    timestamp, author and attachments of its messages; every message with
    the id ends with the new content and the flag set. *)
Theorem edit_touches_content_only (s : ChatState) (e : DiscordEditedMessage) :
  let view' := messages (chatReducer s (edit e)) in
  Forall2 (fun m m' => platform m' = platform m /\ id m' = id m
                       /\ timestamp m' = timestamp m /\ author m' = author m
                       /\ attachments m' = attachments m)
          (messages s) view'
  /\ forall m', In m' view' -> id m' = edit_id e ->
                content m' = edit_content e /\ edited m' = Some true.
Proof.
  cbv zeta. simpl. split.
  - induction (messages s) as [| m t IH]; simpl; constructor; trivial.
    destruct (String.eqb (id m) (edit_id e)); simpl; auto.
  - intros m' Hin Hid. apply in_map_iff in Hin as (m & Hm & _).
    destruct (String.eqb_spec (id m) (edit_id e)) as [E | E]; subst m'.
    + simpl. auto.
    + contradiction.
Qed.

(** X11.  Of two edits of one id the later wins: applying both is
    applying the second alone. *)
Theorem later_edit_wins (s : ChatState) (e1 e2 : DiscordEditedMessage) :
  edit_id e1 = edit_id e2 ->
  chatReducer (chatReducer s (edit e1)) (edit e2) = chatReducer s (edit e2).
Proof.
  intros Hid. simpl. f_equal. rewrite map_map. apply map_ext. intros m.
  rewrite Hid. destruct (String.eqb_spec (id m) (edit_id e2)) as [E | E]; simpl.
  - rewrite E, String.eqb_refl. reflexivity.
  - apply String.eqb_neq in E. rewrite E. reflexivity.
Qed.

(** X12.  An edit and a delete can be applied in either order. *)
Theorem edit_delete_commute (s : ChatState) (e : DiscordEditedMessage)
        (d : DeletedMessage) :
  chatReducer (chatReducer s (edit e)) (delete d)
  = chatReducer (chatReducer s (delete d)) (edit e).
Proof.
  simpl. f_equal. induction (messages s) as [| m t IH]; simpl; trivial.
  assert (Hkeep :
            negb (platform_eqb
                    (platform (if String.eqb (id m) (edit_id e)
                               then with_edit m (edit_content e) else m))
                    (del_platform d)
                  && String.eqb
                       (id (if String.eqb (id m) (edit_id e)
                            then with_edit m (edit_content e) else m))
                       (del_id d))
            = negb (platform_eqb (platform m) (del_platform d)
                    && String.eqb (id m) (del_id d))).
  { destruct (String.eqb (id m) (edit_id e)); reflexivity. }
  rewrite Hkeep.
  destruct (negb (platform_eqb (platform m) (del_platform d)
                  && String.eqb (id m) (del_id d))); simpl; rewrite IH; reflexivity.
Qed.

Lemma reduceAll_app s l1 l2 :
  reduceAll s (l1 ++ l2) = reduceAll (reduceAll s l1) l2.
Proof. unfold reduceAll. apply fold_left_app. Qed.

(** X13.  After a run of new messages the view is the last 100 of the
    former view followed by the run, in arrival order. *)
Theorem view_is_last_100 (s : ChatState) (msgs : list ChatMessage) :
  (length (messages s) <= 100)%nat ->
  messages (reduceAll s (map MsgChat msgs))
  = Js.slice_last 100 (messages s ++ msgs).
Proof.
  intros Hs. induction msgs as [| m msgs IH] using rev_ind.
  - simpl. rewrite List.app_nil_r. symmetry.
    apply JsFacts.slice_last_short, Hs.
  - rewrite map_app, reduceAll_app. simpl. rewrite IH.
    rewrite app_assoc.
    apply (JsFacts.slice_last_push _ 100%nat (messages s ++ msgs) m).
Qed.

End ReducerRuns.

(* ===================================================================== *)
(** ** Grouping: what the groups look like *)
(* ===================================================================== *)

Module GroupRuns.
Import Client.

Lemma joins_near g m : joins g m = true <-> near (first g) m.
Proof.
  unfold joins, near.
  rewrite !andb_true_iff, TypesFacts.platform_eqb_eq, String.eqb_eq, Z.leb_le.
  change (5 * 60 * 1000) with 300000. tauto.
Qed.

Lemma near_refl m : near m m.
Proof.
  unfold near. rewrite Z.sub_diag. simpl. repeat split; lia.
Qed.

(** The two ways a step can end, with the groups seen from their end. *)
Lemma specStep_cases gs m :
  (gs = [] /\ specStep gs m = [newGroup m])
  \/ (exists earlier current,
         gs = earlier ++ [current]
         /\ joins current m = true
         /\ specStep gs m = earlier ++ [addMember current m])
  \/ (exists earlier current,
         gs = earlier ++ [current]
         /\ joins current m = false
         /\ specStep gs m = gs ++ [newGroup m]).
Proof.
  unfold specStep. destruct (rev gs) as [| current earlier] eqn:Hr.
  - left. split; trivial.
    apply (f_equal (@rev _)) in Hr. rewrite rev_involutive in Hr. exact Hr.
  - right.
    assert (Hgs : gs = rev earlier ++ [current]).
    { apply (f_equal (@rev _)) in Hr. rewrite rev_involutive in Hr. exact Hr. }
    destruct (joins current m) eqn:Hj; [left | right];
      exists (rev earlier), current; auto.
Qed.

Lemma specStep_Forall (P : MessageGroup -> Prop) gs m :
  P (newGroup m) ->
  (forall g, P g -> joins g m = true -> P (addMember g m)) ->
  Forall P gs -> Forall P (specStep gs m).
Proof.
  intros Hnew Hadd Hgs.
  destruct (specStep_cases gs m)
    as [[-> ->] | [(e & c & -> & Hj & ->) | (e & c & -> & Hj & ->)]].
  - repeat constructor. exact Hnew.
  - apply Forall_app in Hgs as [He Hc]. inversion Hc; subst.
    apply Forall_app. split; trivial. repeat constructor. apply Hadd; assumption.
  - apply Forall_app. split; trivial. repeat constructor. exact Hnew.
Qed.

(** X14.  Inside a group every message has the platform and the author
    name of the group's first message and a timestamp within five minutes
    of it. *)
Theorem members_near_first (msgs : list ChatMessage) :
  Forall (fun g =>
            Forall (fun m => platform m = platform (first g)
                             /\ name (author m) = name (author (first g))
                             /\ Z.abs (timestamp m - timestamp (first g)) <= 300000)
                   (members g))
         (groupMessages msgs).
Proof.
  change (Forall (fun g => Forall (near (first g)) (members g))
                 (groupMessages msgs)).
  induction msgs as [| m msgs IH] using rev_ind.
  - constructor.
  - rewrite GroupFacts.groupMessages_snoc. apply specStep_Forall; trivial.
    + simpl. repeat constructor; apply near_refl.
    + intros g Hg Hj. simpl. apply Forall_app. split; trivial.
      repeat constructor; apply joins_near, Hj.
Qed.

Lemma adjacent_snoc gs z g1 g2 :
  adjacent (gs ++ [z]) g1 g2 ->
  adjacent gs g1 g2 \/ (g2 = z /\ exists pre, gs = pre ++ [g1]).
Proof.
  intros (pre & post & H).
  destruct (rev post) as [| y rpost] eqn:Hr;
    apply (f_equal (@rev _)) in Hr; rewrite rev_involutive in Hr; simpl in Hr;
    subst post.
  - right. change (pre ++ [g1; g2]) with (pre ++ [g1] ++ [g2]) in H.
    rewrite app_assoc in H. apply app_inj_tail in H as [-> ->]. eauto.
  - left. exists pre, (rev rpost).
    change (pre ++ g1 :: g2 :: rev rpost ++ [y])
      with (pre ++ (g1 :: g2 :: rev rpost) ++ [y]) in H.
    rewrite app_assoc in H. apply app_inj_tail in H as [-> _]. reflexivity.
Qed.

Lemma adjacent_app gs z g1 g2 : adjacent gs g1 g2 -> adjacent (gs ++ z) g1 g2.
Proof.
  intros (pre & post & ->). exists pre, (post ++ z).
  rewrite <- app_assoc. reflexivity.
Qed.

(** X15.  Groups are as long as the rule allows: the first message of a
    group could not have joined the group just before it. *)
Theorem groups_are_maximal (msgs : list ChatMessage) (g1 g2 : MessageGroup) :
  (exists pre post, groupMessages msgs = pre ++ g1 :: g2 :: post) ->
  joins g1 (first g2) = false.
Proof.
  change (adjacent (groupMessages msgs) g1 g2 -> joins g1 (first g2) = false).
  revert g1 g2. induction msgs as [| m msgs IH] using rev_ind; intros g1 g2 Hadj.
  - destruct Hadj as (pre & post & H). destruct pre; discriminate.
  - rewrite GroupFacts.groupMessages_snoc in Hadj.
    destruct (specStep_cases (groupMessages msgs) m)
      as [[Hgs Hs] | [(e & c & Hgs & Hj & Hs) | (e & c & Hgs & Hj & Hs)]];
      rewrite Hs in Hadj.
    + destruct Hadj as (pre & post & H). destruct pre as [| ? [| ? ?]]; discriminate.
    + apply adjacent_snoc in Hadj as [Hadj | (-> & pre & ->)].
      * apply IH. rewrite Hgs. apply adjacent_app, Hadj.
      * apply (IH g1 c). rewrite Hgs. exists pre, [].
        rewrite <- app_assoc. reflexivity.
    + apply adjacent_snoc in Hadj as [Hadj | (-> & pre & Hpre)].
      * apply IH, Hadj.
      * rewrite Hgs in Hpre. apply app_inj_tail in Hpre as [_ ->]. exact Hj.
Qed.

(** X16.  A run of messages that all have the platform and author name of
    the first and lie within five minutes of it is one group, led by the
    first and holding the whole run. *)
Theorem burst_is_one_group (m0 : ChatMessage) (rest : list ChatMessage) :
  Forall (fun m => platform m = platform m0
                   /\ name (author m) = name (author m0)
                   /\ Z.abs (timestamp m - timestamp m0) <= 300000) rest ->
  groupMessages (m0 :: rest) = [mkGroup (id m0) m0 (m0 :: rest)].
Proof.
  induction rest as [| m rest IH] using rev_ind; intros H.
  - reflexivity.
  - apply Forall_app in H as [Hrest Hm]. inversion Hm as [| ? ? Hnear _]; subst.
    change (m0 :: rest ++ [m]) with ((m0 :: rest) ++ [m]).
    rewrite GroupFacts.groupMessages_snoc, (IH Hrest).
    unfold specStep. simpl.
    assert (Hj : joins (mkGroup (id m0) m0 (m0 :: rest)) m = true)
      by (apply joins_near; exact Hnear).
    rewrite Hj. reflexivity.
Qed.

End GroupRuns.

(* ===================================================================== *)
(** ** The socket over a run of events *)
(* ===================================================================== *)

Module SocketRuns.
Import Client.

Lemma runSocket_cons ev evs s :
  runSocket (ev :: evs) s = runSocket evs (socketStep s ev).
Proof. reflexivity. Qed.

Lemma runSocket_snoc evs ev s :
  runSocket (evs ++ [ev]) s = socketStep (runSocket evs s) ev.
Proof. unfold runSocket. rewrite fold_left_app. reflexivity. Qed.

(** Once the hook is unmounted an event can only use up a pending timer. *)
Lemma cancelled_step s ev :
  cancelled s = true ->
  let s' := socketStep s ev in
  cancelled s' = true
  /\ connectionState s' = connectionState s
  /\ latencyMs s' = latencyMs s
  /\ retryCount s' = retryCount s
  /\ retryRef s' = retryRef s
  /\ (socketRef s = false -> socketRef s' = false)
  /\ (pingIntervalRef s = false -> pingIntervalRef s' = false)
  /\ exists k, timeouts s' = skipn k (timeouts s).
Proof.
  intros Hc. cbv zeta.
  assert (Hsame : forall t, t = s ->
             cancelled t = true /\ connectionState t = connectionState s
             /\ latencyMs t = latencyMs s /\ retryCount t = retryCount s
             /\ retryRef t = retryRef s
             /\ (socketRef s = false -> socketRef t = false)
             /\ (pingIntervalRef s = false -> pingIntervalRef t = false)
             /\ exists k, timeouts t = skipn k (timeouts s)).
  { intros t ->. repeat split; trivial. exists 0%nat. reflexivity. }
  destruct ev as [elapsed | random | |]; simpl.
  - unfold onopen. rewrite Hc. apply Hsame. reflexivity.
  - unfold onclose. rewrite Hc. apply Hsame. reflexivity.
  - destruct (timeouts s) as [| d rest] eqn:Ht.
    + rewrite <- Ht. repeat split; trivial. exists 0%nat. reflexivity.
    + unfold connect. simpl. rewrite Hc. simpl. repeat split; trivial.
      exists 1%nat. reflexivity.
  - unfold teardown. simpl. repeat split; trivial. exists 0%nat. reflexivity.
Qed.

Lemma cancelled_run evs s :
  cancelled s = true ->
  let s' := runSocket evs s in
  cancelled s' = true
  /\ connectionState s' = connectionState s
  /\ latencyMs s' = latencyMs s
  /\ retryCount s' = retryCount s
  /\ retryRef s' = retryRef s
  /\ (socketRef s = false -> socketRef s' = false)
  /\ (pingIntervalRef s = false -> pingIntervalRef s' = false)
  /\ exists k, timeouts s' = skipn k (timeouts s).
Proof.
  cbv zeta. revert s. induction evs as [| ev evs IH]; intros s Hc.
  - repeat split; trivial. exists 0%nat. reflexivity.
  - rewrite runSocket_cons.
    destruct (cancelled_step s ev Hc) as (H1 & H2 & H3 & H4 & H5 & H6 & H7 & k & H8).
    destruct (IH _ H1) as (I1 & I2 & I3 & I4 & I5 & I6 & I7 & k' & I8).
    repeat split; try congruence; auto.
    exists (k' + k)%nat. rewrite I8, H8, skipn_skipn. reflexivity.
Qed.

(** X17.  Unmounting is final: whatever happens afterwards, the hook stays
    cancelled with no socket and no probe, its connection state, latency
    and counters stay as they were, and no reconnection is scheduled (the
    pending timers can only run out). *)
Theorem teardown_is_final (evs : list SocketEvent) (s : Socket) :
  let s' := runSocket evs (teardown s) in
  cancelled s' = true
  /\ socketRef s' = false
  /\ pingIntervalRef s' = false
  /\ connectionState s' = connectionState s
  /\ latencyMs s' = latencyMs s
  /\ retryCount s' = retryCount s
  /\ retryRef s' = retryRef s
  /\ exists k, timeouts s' = skipn k (timeouts s).
Proof.
  cbv zeta.
  destruct (cancelled_run evs (teardown s) eq_refl)
    as (H1 & H2 & H3 & H4 & H5 & H6 & H7 & H8).
  repeat split; auto.
Qed.

(** X18.  The ref behind the backoff counts every close the mounted hook
    has handled: it grows by one per close and nothing, a successful open
    included, takes it back. *)
Theorem retryRef_counts_closes (evs : list SocketEvent) (s : Socket) :
  cancelled s = false ->
  retryRef (runSocket evs s) = retryRef s + Z.of_nat (closesHandled evs).
Proof.
  revert s. induction evs as [| ev evs IH]; intros s Hc.
  - simpl. lia.
  - rewrite runSocket_cons. destruct ev as [elapsed | random | |].
    + simpl closesHandled. rewrite IH; simpl; unfold onopen; rewrite Hc; reflexivity.
    + simpl closesHandled. rewrite IH; simpl; unfold onclose; rewrite Hc; simpl; trivial.
      lia.
    + simpl closesHandled. rewrite IH; simpl.
      * destruct (timeouts s); trivial. unfold connect. simpl. rewrite Hc. reflexivity.
      * destruct (timeouts s); trivial. unfold connect. simpl. rewrite Hc. reflexivity.
    + simpl closesHandled.
      destruct (cancelled_run evs (socketStep s TornDown) eq_refl)
        as (_ & _ & _ & _ & H & _).
      rewrite H. simpl. lia.
Qed.

Lemma retryRef_counts_closes_witness :
  retryRef (runSocket Samples.mounted_run (connect initial))
  = retryRef (connect initial) + Z.of_nat (closesHandled Samples.mounted_run).
Proof.
  apply (retryRef_counts_closes Samples.mounted_run (connect initial)).
  reflexivity.
Defined.

Lemma run_invariant (P : Socket -> Prop) s0 :
  P s0 -> (forall s ev, P s -> P (socketStep s ev)) ->
  forall evs, P (runSocket evs s0).
Proof.
  intros H0 Hstep evs. induction evs as [| ev evs IH] using rev_ind.
  - exact H0.
  - rewrite runSocket_snoc. apply Hstep, IH.
Qed.

(** X19.  What the hook shows as retry count, from mount on: 0 while
    connected; while disconnected, the ref's count of closes, which is at
    least 1; and never more than that count. *)
Theorem shown_retry_count (evs : list SocketEvent) :
  let s := runSocket evs (connect initial) in
  0 <= retryCount s <= retryRef s
  /\ (connectionState s = connected -> retryCount s = 0)
  /\ (connectionState s = disconnected ->
      retryCount s = retryRef s /\ 1 <= retryCount s).
Proof.
  cbv zeta.
  apply (run_invariant
           (fun s => 0 <= retryCount s <= retryRef s
                     /\ (connectionState s = connected -> retryCount s = 0)
                     /\ (connectionState s = disconnected ->
                         retryCount s = retryRef s /\ 1 <= retryCount s))).
  - simpl. repeat split; try lia; discriminate.
  - intros s ev (Hr & Hc & Hd).
    destruct ev as [elapsed | random | |]; simpl.
    + unfold onopen. destruct (cancelled s); simpl; auto.
      repeat split; try lia; discriminate.
    + unfold onclose. destruct (cancelled s); simpl; auto.
      repeat split; try lia; discriminate.
    + destruct (timeouts s); auto.
      unfold connect. simpl. destruct (cancelled s); simpl; auto.
      repeat split; try lia; discriminate.
    + auto.
Qed.

(** X20.  The latency probe runs only on a live connection: whenever its
    interval is set, the hook is mounted and its state is connected. *)
Theorem probe_only_when_connected (evs : list SocketEvent) :
  let s := runSocket evs (connect initial) in
  pingIntervalRef s = true ->
  connectionState s = connected /\ cancelled s = false.
Proof.
  cbv zeta.
  apply (run_invariant
           (fun s => pingIntervalRef s = true ->
                     connectionState s = connected /\ cancelled s = false)).
  - discriminate.
  - intros s ev H.
    destruct ev as [elapsed | random | |]; simpl.
    + unfold onopen. destruct (cancelled s) eqn:Hc; simpl.
      * intros Hp. destruct (H Hp) as [_ Hf]. congruence.
      * auto.
    + unfold onclose. destruct (cancelled s) eqn:Hc; simpl.
      * intros Hp. destruct (H Hp) as [_ Hf]. congruence.
      * discriminate.
    + destruct (timeouts s); auto.
      unfold connect. simpl. destruct (cancelled s) eqn:Hc; simpl.
      * intros Hp. destruct (H Hp) as [_ Hf]. congruence.
      * discriminate.
    + discriminate.
Qed.

Lemma probe_only_when_connected_witness :
  connectionState (runSocket [Closed 0; TimerFired; Opened 7] (connect initial))
  = connected
  /\ cancelled (runSocket [Closed 0; TimerFired; Opened 7] (connect initial))
     = false.
Proof.
  apply (probe_only_when_connected [Closed 0; TimerFired; Opened 7]).
  reflexivity.
Defined.

Lemma delay_in_range (n : Z) (random : Q) :
  0 <= n -> (0 <= random)%Q -> (random < 1)%Q ->
  (500 <= Js.add (inject_Z (baseDelay (n + 1))) (Js.mul random 400))%Q
  /\ (Js.add (inject_Z (baseDelay (n + 1))) (Js.mul random 400) <= 5400)%Q.
Proof.
  intros Hn H0 H1.
  assert (Hb : 500 <= baseDelay (n + 1) <= 5000) by (unfold baseDelay; lia).
  destruct (NumberFacts.mul_400_range random H0 H1) as [Hj0 Hj1].
  destruct (NumberFacts.add_range (baseDelay (n + 1)) (Js.mul random 400))
    as [Hl Hh]; trivial; try lia.
  assert (Q0 : (500 <= inject_Z (baseDelay (n + 1)))%Q).
  { change 500%Q with (inject_Z 500). rewrite <- Zle_Qle. lia. }
  assert (Q1 : (inject_Z (baseDelay (n + 1)) <= 5000)%Q).
  { change 5000%Q with (inject_Z 5000). rewrite <- Zle_Qle. lia. }
  split; lra.
Qed.

(** X21.  From mount on, as long as [Math.random()] answers in [0, 1),
    every reconnection is scheduled at least 500 ms and at most 5400 ms
    ahead; the delay being a rounded double sum, 5400 itself is reached. *)
Theorem delays_in_range (evs : list SocketEvent) :
  Forall unit_interval evs ->
  Forall (fun d => (500 <= d)%Q /\ (d <= 5400)%Q)
         (timeouts (runSocket evs (connect initial))).
Proof.
  intros Hev.
  assert (H : 0 <= retryRef (runSocket evs (connect initial))
              /\ Forall (fun d => (500 <= d)%Q /\ (d <= 5400)%Q)
                        (timeouts (runSocket evs (connect initial))));
    [| apply H].
  induction evs as [| ev evs IH] using rev_ind.
  - simpl. split; [lia | constructor].
  - apply Forall_app in Hev as [Hevs Hev]. inversion Hev as [| ? ? Hu _]; subst.
    destruct (IH Hevs) as [Hr Ht]. rewrite runSocket_snoc.
    remember (runSocket evs (connect initial)) as s eqn:Es. clear Es.
    destruct ev as [elapsed | random | |]; simpl.
    + unfold onopen. destruct (cancelled s); simpl; auto.
    + unfold onclose. destruct (cancelled s); simpl; auto.
      split; [lia |]. apply Forall_app. split; trivial.
      constructor; [| constructor]. destruct Hu as [H0 H1].
      apply delay_in_range; assumption.
    + destruct (timeouts s) as [| d rest] eqn:E.
      * rewrite E. split; [exact Hr | constructor].
      * inversion Ht; subst.
        unfold connect. simpl. destruct (cancelled s); simpl; auto.
    + auto.
Qed.

Lemma delays_in_range_witness :
  Forall (fun d => (500 <= d)%Q /\ (d <= 5400)%Q)
         (timeouts (runSocket [Closed (1 # 2); Closed (3 # 4)] (connect initial))).
Proof.
  apply (delays_in_range [Closed (1 # 2); Closed (3 # 4)]).
  repeat constructor; discriminate.
Defined.

End SocketRuns.

(* ===================================================================== *)
(** ** A client against the hub *)
(* ===================================================================== *)

Module EndToEnd.
Import Server Client.

Lemma Forall_skipn {A} (P : A -> Prop) n l : Forall P l -> Forall P (skipn n l).
Proof.
  intros H. rewrite <- (firstn_skipn n l) in H.
  apply Forall_app in H. apply H.
Qed.

Lemma owned_add owner m buf :
  platform m = owner (id m) -> owned owner buf -> owned owner (addToBuffer m buf).
Proof.
  intros Hm Hb. rewrite ServerFacts.addToBuffer_slice.
  unfold Js.slice_last, Js.push. apply Forall_skipn, Forall_app.
  split; [exact Hb | repeat constructor; exact Hm].
Qed.

(** The platforms keep their ids through every publication. *)
Lemma owned_step owner p buf :
  keyed owner p -> owned owner buf -> owned owner (bufferEffect p buf).
Proof.
  intros Hk Hb. destruct p as [m | i t n a c | m | m | targetId]; simpl in *.
  - apply owned_add; trivial. simpl. congruence.
  - apply owned_add; trivial. simpl. congruence.
  - unfold editInBuffer, owned in *. rewrite Forall_forall in *.
    intros x Hx. apply in_map_iff in Hx as (y & <- & Hy).
    specialize (Hb y Hy). destruct (String.eqb (id y) (gm_id m)); exact Hb.
  - unfold removeFromBuffer, owned in *. rewrite Forall_forall in *.
    intros x Hx. apply filter_In in Hx as [Hx _]. auto.
  - unfold removeFromBuffer, owned in *. rewrite Forall_forall in *.
    intros x Hx. apply filter_In in Hx as [Hx _]. auto.
Qed.

Lemma delete_agrees owner P i buf :
  owned owner buf -> owner i = P ->
  filter (fun m => negb (platform_eqb (platform m) P && String.eqb (id m) i)) buf
  = removeFromBuffer i buf.
Proof.
  intros Hb Ho. unfold removeFromBuffer. apply filter_ext_in. intros m Hm.
  unfold owned in Hb. rewrite Forall_forall in Hb. specialize (Hb m Hm).
  destruct (String.eqb_spec (id m) i) as [E | E].
  - rewrite Hb, E, Ho, TypesFacts.platform_eqb_refl. reflexivity.
  - rewrite andb_false_r. reflexivity.
Qed.

(** On a view equal to the buffer, reducing the frame of a publication
    gives the buffer after the publication. *)
Lemma client_follows owner p buf msg :
  owned owner buf -> keyed owner p ->
  frame_of p buf = Some msg ->
  chatReducer (mkState buf) (handleIncoming msg) = mkState (bufferEffect p buf).
Proof.
  intros Hb Hk Hf.
  destruct p as [m | i t n a c | m | m | targetId]; simpl in *.
  - destruct (inChannel m); inversion Hf; subst msg. simpl.
    rewrite ServerFacts.addToBuffer_slice. reflexivity.
  - inversion Hf; subst msg. simpl.
    rewrite ServerFacts.addToBuffer_slice. reflexivity.
  - destruct (inChannel m && _); inversion Hf; subst msg. reflexivity.
  - destruct (inChannel m); inversion Hf; subst msg. simpl. f_equal.
    apply (delete_agrees owner); assumption.
  - inversion Hf; subst msg. simpl. f_equal.
    apply (delete_agrees owner); assumption.
Qed.

Section Network.
Variable send : Conn -> Message -> SendResult.

Lemma frames_to_fanout c msg w :
  NoDup (clients w) -> In c (clients w) -> send c msg = Accepted ->
  frames_to c (fanout send msg w) = [msg].
Proof.
  intros Hnd Hin Ha. unfold fanout.
  rewrite (HubRuns.frames_to_broadcast c msg
             (fun x => accepted (send x msg)) (clients w) Hnd).
  rewrite Ha. simpl.
  assert (existsb (Nat.eqb c) (clients w) = true) as ->; trivial.
  apply existsb_exists. exists c. split; trivial. apply Nat.eqb_refl.
Qed.

Lemma open_run ws w :
  send ws (MsgHistory (messageBuffer w)) <> Raised ->
  open send ws w
  = (Normal tt,
     {| messageBuffer := messageBuffer w; clients := set_add ws (clients w) |},
     historyFrame send ws (messageBuffer w)).
Proof.
  intros Hno. unfold open. rewrite HubRuns.bind_run.
  unfold completion, world_of, effects. simpl.
  rewrite HubFacts.getBuffer_bind. unfold historyFrame. simpl.
  destruct (0 <? length (messageBuffer w))%nat; simpl; trivial.
  unfold client_send. destruct (send ws _); simpl; trivial. congruence.
Qed.

Lemma frames_to_history c ws buf :
  frames_to c (historyFrame send ws buf)
  = if Nat.eqb ws c && (0 <? length buf)%nat
       && accepted (send ws (MsgHistory buf))
    then [MsgHistory buf] else [].
Proof.
  unfold historyFrame.
  destruct (0 <? length buf)%nat, (accepted (send ws (MsgHistory buf)));
    simpl; destruct (Nat.eqb ws c); reflexivity.
Qed.

(** One callback, seen from a connection that stays: the callback
    returns, the connection is still a member of a duplicate-free set, ids
    are still owned, and the frames it got take a view equal to the buffer
    to the new buffer. *)
Lemma handle_replica owner c ev w :
  (forall x msg, send x msg <> Raised) ->
  (forall msg, send c msg = Accepted) ->
  NoDup (clients w) -> In c (clients w) -> owned owner (messageBuffer w) ->
  foreign c ev -> keyed_event owner ev ->
  let r := handle send ev w in
  completion r = Normal tt
  /\ NoDup (clients (world_of r))
  /\ In c (clients (world_of r))
  /\ owned owner (messageBuffer (world_of r))
  /\ reduceAll (mkState (messageBuffer w)) (frames_to c (effects r))
     = mkState (messageBuffer (world_of r)).
Proof.
  intros Hno Hacc Hnd Hin Hown Hfor Hkey. cbv zeta.
  destruct ev as [ws | ws | p]; simpl in *.
  - rewrite open_run by apply Hno.
    unfold completion, world_of, effects. simpl.
    rewrite frames_to_history.
    destruct (Nat.eqb_spec ws c); [contradiction |]. simpl.
    repeat split; trivial.
    + apply HubRuns.set_add_NoDup, Hnd.
    + apply HubRuns.set_add_In. auto.
  - unfold close, completion, world_of, effects. simpl.
    repeat split; trivial.
    + apply HubRuns.set_delete_NoDup, Hnd.
    + apply HubRuns.set_delete_In. auto.
  - rewrite (HubRuns.publish_run send p w Hno).
    destruct (frame_of p (messageBuffer w)) as [msg |] eqn:Hf.
    + cbv zeta. unfold completion, world_of, effects. simpl.
      assert (Hfr : frames_to c
                      (if creates p
                       then BufferUpdated (bufferEffect p (messageBuffer w))
                              :: fanout send msg w
                       else fanout send msg w
                              ++ [BufferUpdated (bufferEffect p (messageBuffer w))])
                    = [msg]).
      { destruct (creates p); simpl.
        - apply frames_to_fanout; auto.
        - rewrite HubRuns.frames_to_app, frames_to_fanout by auto. reflexivity. }
      rewrite Hfr. repeat split; trivial.
      * apply owned_step; assumption.
      * simpl. apply (client_follows owner); assumption.
    + unfold completion, world_of, effects. simpl. repeat split; trivial.
Qed.

(** X22.  A connected client mirrors the buffer.  Take a connection that
    is a member throughout a run of joins, leaves and publications, whose
    socket takes every frame, in a hub where no socket throws, the members
    are a set and the platforms do not share ids.  If the client's view
    equals the buffer when the run starts, then reducing the frames it
    receives, in order, leaves its view equal to the buffer when the run
    ends. *)
Theorem replica_follows_buffer (owner : string -> Platform) (c : Conn)
        (evs : list HubEvent) (w : World) :
  (forall x msg, send x msg <> Raised) ->
  (forall msg, send c msg = Accepted) ->
  NoDup (clients w) -> In c (clients w) ->
  owned owner (messageBuffer w) ->
  Forall (foreign c) evs -> Forall (keyed_event owner) evs ->
  let r := serve send evs w in
  completion r = Normal tt
  /\ messages (reduceAll (mkState (messageBuffer w)) (frames_to c (effects r)))
     = messageBuffer (world_of r).
Proof.
  intros Hno Hacc. cbv zeta. revert w.
  induction evs as [| ev rest IH]; intros w Hnd Hin Hown Hfor Hkey.
  - split; reflexivity.
  - inversion Hfor as [| ? ? Hf Hfrest]; subst.
    inversion Hkey as [| ? ? Hk Hkrest]; subst.
    destruct (handle_replica owner c ev w Hno Hacc Hnd Hin Hown Hf Hk)
      as (Hc & Hnd' & Hin' & Hown' & Hred).
    rewrite HubRuns.serve_cons, Hc.
    destruct (IH _ Hnd' Hin' Hown' Hfrest Hkrest) as [IHc IHred].
    unfold completion at 1, world_of at 1, effects at 1. simpl.
    split; [exact IHc |].
    rewrite HubRuns.frames_to_app, ReducerRuns.reduceAll_app, Hred.
    exact IHred.
Qed.

(** X23.  What a join gives the client.  On an empty buffer the hub sends
    nothing, so the client keeps the view it had; on a non-empty buffer an
    accepting socket gets one history frame holding the buffer, which
    replaces the view by the buffer sorted by timestamp, the buffer itself
    when it is already in that order.  No other connection gets a frame. *)
Theorem join_view (ws : Conn) (w : World) (view : list ChatMessage) :
  let frames := frames_to ws (effects (open send ws w)) in
  let view' := messages (reduceAll (mkState view) frames) in
  (messageBuffer w = [] -> frames = [] /\ view' = view)
  /\ (messageBuffer w <> [] ->
      send ws (MsgHistory (messageBuffer w)) = Accepted ->
      frames = [MsgHistory (messageBuffer w)]
      /\ view' = Js.sort byTimestamp (messageBuffer w)
      /\ (StronglySorted ts_le (messageBuffer w) -> view' = messageBuffer w))
  /\ (forall c, c <> ws -> frames_to c (effects (open send ws w)) = []).
Proof.
  cbv zeta. rewrite HubFacts.open_effects. split; [| split].
  - intros He. rewrite frames_to_history, He. simpl.
    rewrite andb_false_r. split; reflexivity.
  - intros Hne Ha. rewrite frames_to_history, Ha, Nat.eqb_refl.
    destruct (messageBuffer w) as [| m buf] eqn:E; [contradiction |].
    simpl. repeat split. intros Hs.
    exact (ReducerRuns.sort_sorted_id (m :: buf) Hs).
  - intros c Hc. rewrite frames_to_history.
    destruct (Nat.eqb_spec ws c); [congruence | reflexivity].
Qed.

End Network.
End EndToEnd.

(* ===================================================================== *)
(** ** Batches, and the buffer of a run *)
(* ===================================================================== *)

Module HubBatches.
Import Server.

Section Network.
Variable send : Conn -> Message -> SendResult.

Lemma ret_bind (k : Hub unit) w : (ret tt ;; k) w = k w.
Proof. unfold bind, ret. destruct (k w) as [[r w2] e2]. reflexivity. Qed.

Lemma bind_ext (m k k' : Hub unit) w :
  (forall w1, k w1 = k' w1) -> (m ;; k) w = (m ;; k') w.
Proof.
  intros H. unfold bind. destruct (m w) as [[[a |] w1] e1]; trivial.
  rewrite H. reflexivity.
Qed.

(** X24.  A batch of Masterchat actions is handled as the run of its add
    and delete actions, in order: the other action types leave no trace,
    and an exception in one action leaves the rest of the batch undone. *)
Theorem batch_is_a_run (batch : list Action) (w : World) :
  actions send batch w = serve send (publications_of batch) w.
Proof.
  revert w. induction batch as [| a rest IH]; intros w.
  - reflexivity.
  - destruct a as [i t n x c | targetId |]; simpl.
    + apply bind_ext, IH.
    + apply bind_ext, IH.
    + rewrite ret_bind. apply IH.
Qed.

Lemma publish_buffer p w :
  (forall c msg, send c msg <> Raised) ->
  completion (publish send p w) = Normal tt
  /\ messageBuffer (world_of (publish send p w))
     = if relayed p then bufferEffect p (messageBuffer w) else messageBuffer w.
Proof.
  intros Hno. rewrite (HubRuns.publish_run send p w Hno).
  destruct p as [m | i t n a c | m | m | targetId]; simpl;
    try (destruct (inChannel m) eqn:Hin; simpl); auto.
  destruct (existsb _ (messageBuffer w)) eqn:Hex; simpl; auto.
  split; trivial. symmetry. apply ServerFacts.editInBuffer_miss.
  apply HubFacts.existsb_id_false, Hex.
Qed.

(** X25.  When no socket throws, the buffer a run leaves depends on its
    publications alone: it is the buffer obtained by applying, in order,
    the mutation of each publication that passes the channel filter,
    whoever joined or left and whichever sockets refused their frames. *)
Theorem buffer_ignores_connections (evs : list HubEvent) (w : World) :
  (forall c msg, send c msg <> Raised) ->
  completion (serve send evs w) = Normal tt
  /\ messageBuffer (world_of (serve send evs w))
     = bufferAfter evs (messageBuffer w).
Proof.
  intros Hno. revert w. induction evs as [| ev rest IH]; intros w.
  - split; reflexivity.
  - rewrite HubRuns.serve_cons.
    assert (Hstep : completion (handle send ev w) = Normal tt
                    /\ messageBuffer (world_of (handle send ev w))
                       = match ev with
                         | Publish p =>
                             if relayed p
                             then bufferEffect p (messageBuffer w)
                             else messageBuffer w
                         | _ => messageBuffer w
                         end).
    { destruct ev as [ws | ws | p]; simpl.
      - rewrite EndToEnd.open_run by apply Hno. split; reflexivity.
      - split; reflexivity.
      - apply publish_buffer, Hno. }
    destruct Hstep as [Hc Hb]. rewrite Hc.
    destruct (IH (world_of (handle send ev w))) as [IHc IHb].
    split; [exact IHc |].
    unfold world_of at 1. cbn [fst snd]. rewrite IHb, Hb.
    destruct ev; reflexivity.
Qed.

End Network.
End HubBatches.

(* ===================================================================== *)
(** ** The properties at work on the sample data *)
(* ===================================================================== *)

Module RunExamples.
Import Server Client Samples.

Lemma publish_order_witness :
  publish drops_2 (EditOnDiscord (gm_a "x")) two_clients
  = (Normal tt,
     {| messageBuffer := [with_edit dc_a "x"]; clients := [1%nat; 2%nat] |},
     [Delivered 1%nat (MsgEdit (mkEdit discord "a" 3 "x"));
      BufferUpdated [with_edit dc_a "x"]])
  /\ effects ((publish drops_2 (EditOnDiscord (gm_a "x")) ;; open drops_2 3%nat)
                two_clients)
     = [Delivered 1%nat (MsgEdit (mkEdit discord "a" 3 "x"));
        BufferUpdated [with_edit dc_a "x"];
        Delivered 3%nat (MsgHistory [with_edit dc_a "x"])].
Proof.
  destruct (HubRuns.publish_order drops_2 (EditOnDiscord (gm_a "x")) two_clients)
    as [_ H].
  destruct H as [Hexact Hrel].
  - intros c msg. unfold drops_2. destruct (Nat.eqb c 2); discriminate.
  - split.
    + exact (Hexact (MsgEdit (mkEdit discord "a" 3 "x")) eq_refl).
    + destruct (Hrel eq_refl) as (_ & _ & Hjoin). exact (Hjoin 3%nat).
Defined.

Lemma buffer_stays_bounded_witness :
  (length (messageBuffer (world_of (serve drops_2 busy_run two_clients)))
   <= 100)%nat.
Proof.
  apply (HubRuns.buffer_stays_bounded drops_2 busy_run two_clients).
  simpl. lia.
Defined.

Lemma clients_stay_a_set_witness :
  NoDup (clients (world_of (serve drops_2 busy_run two_clients)))
  /\ forall c, In c (clients (world_of (serve drops_2 busy_run two_clients))) ->
               In c (clients two_clients) \/ In (Join c) busy_run.
Proof.
  apply (HubRuns.clients_stay_a_set drops_2 busy_run two_clients).
  repeat constructor; simpl; intuition discriminate.
Defined.

Lemma ignored_events_witness :
  messageCreate raises_2 gm_elsewhere two_clients = (Normal tt, two_clients, [])
  /\ messageUpdate raises_2 gm_elsewhere two_clients = (Normal tt, two_clients, [])
  /\ messageDelete raises_2 gm_elsewhere two_clients = (Normal tt, two_clients, []).
Proof.
  apply (HubRuns.ignored_events raises_2 gm_elsewhere two_clients).
  reflexivity.
Defined.

Lemma unknown_delete_is_relayed_witness :
  handleAction drops_2 (markChatItemAsDeletedAction "zz") two_clients
  = (Normal tt, two_clients,
     fanout drops_2 (MsgDelete (mkDelete youtube "zz")) two_clients
       ++ [BufferUpdated (messageBuffer two_clients)]).
Proof.
  apply (HubRuns.unknown_delete_is_relayed drops_2 two_clients).
  - intros c m. unfold drops_2. destruct (Nat.eqb c 2); discriminate.
  - intros e [<- | []]. discriminate.
Defined.

Lemma fanout_stops_at_throw_witness :
  broadcastMessage raises_2 (MsgChat dc_a) three_clients
  = (Throw, three_clients,
     map (delivery (MsgChat dc_a))
         (filter (fun x => accepted (raises_2 x (MsgChat dc_a))) [1%nat])).
Proof.
  apply (HubRuns.fanout_stops_at_throw raises_2 (MsgChat dc_a) three_clients
           [1%nat] 2%nat [3%nat]).
  - reflexivity.
  - intros x [<- | []]. discriminate.
  - reflexivity.
Defined.

Lemma throwing_socket_witness :
  let r := publish raises_2 (DeleteOnDiscord (gm_a "")) two_clients in
  completion r = Throw
  /\ clients (world_of r) = clients two_clients
  /\ messageBuffer (world_of r)
     = if creates (DeleteOnDiscord (gm_a ""))
       then bufferEffect (DeleteOnDiscord (gm_a "")) (messageBuffer two_clients)
       else messageBuffer two_clients.
Proof.
  apply (HubRuns.throwing_socket raises_2 (DeleteOnDiscord (gm_a ""))
           (MsgDelete (mkDelete discord "a")) two_clients 2%nat).
  - simpl. auto.
  - reflexivity.
  - reflexivity.
Defined.

Lemma sorted_history_is_kept_witness :
  chatReducer (mkState []) (history [yt_a; dc_a]) = mkState [yt_a; dc_a]
  /\ forall ms', chatReducer (mkState [])
                   (history (messages (chatReducer (mkState []) (history ms'))))
                 = chatReducer (mkState []) (history ms').
Proof.
  apply (ReducerRuns.sorted_history_is_kept (mkState []) [yt_a; dc_a]).
  repeat constructor; unfold ts_le; simpl; lia.
Defined.

Lemma unknown_target_is_noop_witness :
  chatReducer (mkState [yt_a]) (edit (mkEdit discord "zz" 0 "x")) = mkState [yt_a].
Proof.
  apply (ReducerRuns.unknown_target_is_noop (mkState [yt_a])).
  intros m [<- | []]. discriminate.
Defined.


Lemma edit_touches_content_only_witness :
  content (with_edit dc_a "x") = "x" /\ edited (with_edit dc_a "x") = Some true.
Proof.
  apply (ReducerRuns.edit_touches_content_only
           (mkState [yt_a; dc_a]) (mkEdit discord "a" 3 "x")).
  - simpl. auto.
  - reflexivity.
Defined.

Lemma later_edit_wins_witness :
  chatReducer (chatReducer (mkState [dc_a]) (edit (mkEdit discord "a" 3 "x")))
              (edit (mkEdit discord "a" 4 "y"))
  = chatReducer (mkState [dc_a]) (edit (mkEdit discord "a" 4 "y")).
Proof.
  apply (ReducerRuns.later_edit_wins (mkState [dc_a])
           (mkEdit discord "a" 3 "x") (mkEdit discord "a" 4 "y")).
  reflexivity.
Defined.

Lemma view_is_last_100_witness :
  messages (reduceAll (mkState [dc_a]) (map MsgChat [yt_a; dc_a]))
  = Js.slice_last 100 (messages (mkState [dc_a]) ++ [yt_a; dc_a]).
Proof.
  apply (ReducerRuns.view_is_last_100 (mkState [dc_a]) [yt_a; dc_a]).
  simpl. lia.
Defined.

Lemma groups_are_maximal_witness :
  joins (newGroup yt_a) (first (newGroup dc_a)) = false.
Proof.
  apply (GroupRuns.groups_are_maximal [yt_a; dc_a] (newGroup yt_a) (newGroup dc_a)).
  exists [], []. reflexivity.
Defined.

Lemma burst_is_one_group_witness :
  groupMessages [dc_a; dc_a; dc_a] = [mkGroup (id dc_a) dc_a [dc_a; dc_a; dc_a]].
Proof.
  apply (GroupRuns.burst_is_one_group dc_a [dc_a; dc_a]).
  repeat constructor; simpl; lia.
Defined.

Lemma shown_retry_count_witness :
  retryCount (runSocket [Closed 0] (connect initial))
  = retryRef (runSocket [Closed 0] (connect initial))
  /\ 1 <= retryCount (runSocket [Closed 0] (connect initial)).
Proof.
  apply (SocketRuns.shown_retry_count [Closed 0]).
  reflexivity.
Defined.

Lemma replica_follows_buffer_witness :
  let r := serve drops_2 busy_run two_clients in
  completion r = Normal tt
  /\ messages (reduceAll (mkState (messageBuffer two_clients))
                         (frames_to 1%nat (effects r)))
     = messageBuffer (world_of r).
Proof.
  apply (EndToEnd.replica_follows_buffer drops_2 owner_of_a 1%nat
           busy_run two_clients).
  - intros x msg. unfold drops_2. destruct (Nat.eqb x 2); discriminate.
  - reflexivity.
  - repeat constructor; simpl; intuition discriminate.
  - simpl. auto.
  - repeat constructor.
  - repeat constructor; simpl; discriminate.
  - repeat constructor.
Defined.

Lemma buffer_ignores_connections_witness :
  completion (serve drops_2 busy_run two_clients) = Normal tt
  /\ messageBuffer (world_of (serve drops_2 busy_run two_clients))
     = bufferAfter busy_run (messageBuffer two_clients).
Proof.
  apply (HubBatches.buffer_ignores_connections drops_2 busy_run two_clients).
  intros c msg. unfold drops_2. destruct (Nat.eqb c 2); discriminate.
Defined.

Lemma join_view_witness :
  let frames := frames_to 3%nat (effects (open all_accept 3%nat two_clients)) in
  let view' := messages (reduceAll (mkState [yt_a]) frames) in
  frames = [MsgHistory (messageBuffer two_clients)]
  /\ view' = Js.sort byTimestamp (messageBuffer two_clients)
  /\ (StronglySorted ts_le (messageBuffer two_clients) ->
      view' = messageBuffer two_clients).
Proof.
  apply (EndToEnd.join_view all_accept 3%nat two_clients [yt_a]).
  - discriminate.
  - reflexivity.
Defined.

End RunExamples.
